(** * USB_AI_RAG: the vector index and its metadata store

    A shallow embedding of [indexer/faiss_index.py]: the SQLite-backed
    [MetadataDB], the [FaissIndex] facade over a FAISS HNSW index, the
    slot-to-document mapping persisted as JSON, and the lock discipline
    of [add_vector], [search] and [save].

    Conventions.
    - Python integers are [Z]; Python strings are [string].
    - A method that can raise returns an [outcome]; mutations made before
      the exception stay in the state, as in Python.
    - FAISS itself is an external library: its nearest-neighbour kernel
      is a parameter [knn] of the model, and only what the Python wrapper
      checks (shape assertions) is written out. *)

From Stdlib Require Import ZArith List String Ascii Bool Lia Sorted DecimalString.
From Stdlib Require Import DecimalZ Permutation.
Import ListNotations.
Open Scope Z_scope.

Set Implicit Arguments.
Set Warnings "-register-all".

(* ================================================================== *)
(** * Exceptions and the state-and-exception monad                     *)
(* ================================================================== *)

(** The Python exceptions the module can raise or see. *)
Inductive exn : Type :=
| RuntimeError (msg : string)   (* raise RuntimeError("Index not initialized"), faiss.read_index *)
| AssertionError                (* the shape assertions of faiss' Python wrapper *)
| TypeError                     (* str + int, or max over keys of mixed types *)
| IndexError                    (* distances[0] on a result with no row *)
| JSONDecodeError               (* json.load on a file that is not JSON *)
| AttributeError                (* [self.index.ntotal] when the index is None *)
| OverflowError.                (* sqlite3 binding an int outside 64 bits *)

Inductive outcome (A : Type) : Type :=
| Ok (a : A)
| Raise (e : exn).
Arguments Ok {A} a.
Arguments Raise {A} e.

(** A computation over a mutable state [W]: the state survives a raise. *)
Definition M (W A : Type) : Type := W -> outcome A * W.

Definition ret {W A} (a : A) : M W A := fun w => (Ok a, w).

Definition bind {W A B} (c : M W A) (k : A -> M W B) : M W B :=
  fun w => match c w with
           | (Ok a, w') => k a w'
           | (Raise e, w') => (Raise e, w')
           end.

Definition raise {W A} (e : exn) : M W A := fun w => (Raise e, w).

(** [try: body / except Exception as e: handler e]. *)
Definition try_except {W A} (body : M W A) (handler : exn -> M W A) : M W A :=
  fun w => match body w with
           | (Ok a, w') => (Ok a, w')
           | (Raise e, w') => handler e w'
           end.

Definition get {W} : M W W := fun w => (Ok w, w).
Definition gets {W A} (f : W -> A) : M W A := fun w => (Ok (f w), w).
Definition modify {W} (f : W -> W) : M W unit := fun w => (Ok tt, f w).

(** An operation of a library that may raise but has no state of its own. *)
Definition lift_outcome {W A} (o : outcome A) : M W A := fun w => (o, w).

Declare Scope py_scope.
Delimit Scope py_scope with py.
Notation "x <- c ;; k" := (bind c (fun x => k))
  (at level 61, c at next level, right associativity) : py_scope.
Notation "c ;;; k" := (bind c (fun _ => k))
  (at level 61, right associativity) : py_scope.

(** [for x in xs: body x], the body threading an accumulator. *)
Fixpoint for_each {W A B} (xs : list A) (acc : B) (body : B -> A -> M W B) : M W B :=
  match xs with
  | [] => ret acc
  | x :: xs' => bind (body acc x) (fun acc' => for_each xs' acc' body)
  end.

(* ================================================================== *)
(** * Python dictionaries and JSON                                     *)
(* ================================================================== *)

(** Keys of [id_to_doc_id]: integers when written by [add_vector],
    strings when the dictionary comes from [json.load]. An integer key
    and a string key are never equal. *)
Inductive pykey : Type :=
| KInt (n : Z)
| KStr (s : string).

Definition pykey_eqb (a b : pykey) : bool :=
  match a, b with
  | KInt x, KInt y => Z.eqb x y
  | KStr x, KStr y => String.eqb x y
  | _, _ => false
  end.

(** A dict keeps insertion order; keys are unique. *)
Definition dict : Type := list (pykey * Z).

(** [d.get(k)] *)
Fixpoint dict_get (d : dict) (k : pykey) : option Z :=
  match d with
  | [] => None
  | (k', v) :: d' => if pykey_eqb k' k then Some v else dict_get d' k
  end.

(** [d[k] = v]: overwrite in place, or append. *)
Fixpoint dict_set (d : dict) (k : pykey) (v : Z) : dict :=
  match d with
  | [] => [(k, v)]
  | (k', v') :: d' =>
      if pykey_eqb k' k then (k', v) :: d' else (k', v') :: dict_set d' k v
  end.

Definition dict_keys (d : dict) : list pykey := map fst d.

(** [len(d)] *)
Definition dict_len (d : dict) : Z := Z.of_nat (List.length d).

(** [str(n)] for an integer. *)
Definition str_of_Z (z : Z) : string := NilZero.string_of_int (Z.to_int z).

(** The members of a JSON object whose values are integers, in file order:
    the content of the mapping file. *)
Definition json_object : Type := list (string * Z).

(** [json.dump(d, f)]: an integer key is written as its decimal string. *)
Definition json_key (k : pykey) : string :=
  match k with
  | KInt n => str_of_Z n
  | KStr s => s
  end.

Definition json_dump (d : dict) : json_object :=
  map (fun kv => (json_key (fst kv), snd kv)) d.

(** [json.load(f)]: every key of the result is a [str]; a repeated member
    overwrites the earlier one. *)
Definition json_load (o : json_object) : dict :=
  fold_left (fun d kv => dict_set d (KStr (fst kv)) (snd kv)) o [].

(** [max(keys)] followed by [+ 1]. Integer keys give the next integer;
    a string key makes either [max] (mixed types) or [+ 1] (str + int)
    raise [TypeError]. The caller guards against the empty dictionary. *)
Fixpoint int_keys (ks : list pykey) : option (list Z) :=
  match ks with
  | [] => Some []
  | KInt n :: ks' => option_map (cons n) (int_keys ks')
  | KStr _ :: _ => None
  end.

Definition list_max (x : Z) (xs : list Z) : Z := fold_left Z.max xs x.

Definition max_plus_one (ks : list pykey) : outcome Z :=
  match int_keys ks with
  | Some (x :: xs) => Ok (list_max x xs + 1)
  | Some [] => Raise (RuntimeError "max() arg is an empty sequence")
  | None => Raise TypeError
  end.

(** JSON values, for the [metadata] column. *)
Inductive json : Type :=
| JNull
| JBool (b : bool)
| JInt (n : Z)
| JStr (s : string)
| JList (l : list json)
| JDict (members : list (string * json)).

(* ================================================================== *)
(** * MetadataDB: the [documents] table                                *)
(* ================================================================== *)

(** One row of [documents]. The [metadata] column holds the text
    [json.dumps(metadata)], represented by the JSON value it encodes;
    [None] is SQL NULL. *)
Record document_row : Type := mk_row {
  row_id : Z;
  row_file_path : string;
  row_file_type : string;
  row_content_type : string;
  row_metadata : option json;
  row_snippet : string;
  row_created_at : Z
}.

(** The table, in insertion order. *)
Definition table : Type := list document_row.

(** The dictionary [get_document] and [search_documents] build from a row. *)
Record document : Type := mk_document {
  doc_id : Z;
  doc_file_path : string;
  doc_file_type : string;
  doc_content_type : string;
  doc_metadata : json;
  doc_snippet : string;
  doc_created_at : Z
}.

Definition document_of_row (r : document_row) : document :=
  {| doc_id := row_id r;
     doc_file_path := row_file_path r;
     doc_file_type := row_file_type r;
     doc_content_type := row_content_type r;
     doc_metadata := match row_metadata r with Some j => j | None => JDict [] end;
     doc_snippet := row_snippet r;
     doc_created_at := row_created_at r |}.

(** The rowid SQLite gives to an [INTEGER PRIMARY KEY] left out of the
    INSERT: one more than the largest in use, 1 in an empty table.
    (The 64-bit ceiling, where SQLite picks an unused id at random, is
    not reached by a table filled one row at a time.) *)
Definition next_rowid (t : table) : Z :=
  match t with
  | [] => 1
  | r :: t' => list_max (row_id r) (map row_id t') + 1
  end.

(** The arguments of [add_document] / [add_vector] other than the vector. *)
Record doc_args : Type := mk_args {
  arg_file_path : string;
  arg_file_type : string;
  arg_content_type : string;
  arg_metadata : json;
  arg_snippet : string
}.

(** [MetadataDB.add_document]: returns [cursor.lastrowid] and the table
    after the commit. [now] is CURRENT_TIMESTAMP. *)
Definition add_document (now : Z) (t : table) (a : doc_args) : Z * table :=
  let id := next_rowid t in
  (id, t ++ [ {| row_id := id;
                 row_file_path := arg_file_path a;
                 row_file_type := arg_file_type a;
                 row_content_type := arg_content_type a;
                 row_metadata := Some (arg_metadata a);
                 row_snippet := arg_snippet a;
                 row_created_at := now |} ]).

(** [MetadataDB.get_document]: [SELECT * FROM documents WHERE id = ?],
    [fetchone()]. *)
Definition get_document (t : table) (id : Z) : option document :=
  option_map document_of_row (find (fun r => Z.eqb (row_id r) id) t).

(** ** SQL [LIKE] *)

(** SQLite's LIKE folds the case of ASCII letters only. *)
Definition sql_upper (c : ascii) : ascii :=
  let n := nat_of_ascii c in
  if (andb (Nat.leb 97 n) (Nat.leb n 122)) then ascii_of_nat (n - 32) else c.


(** [s LIKE p]: [%] matches any run of characters, [_] exactly one, any
    other character itself up to ASCII case. No ESCAPE clause is used. *)
Fixpoint like (p s : list ascii) {struct p} : bool :=
  match p with
  | [] => match s with [] => true | _ :: _ => false end
  | c :: p' =>
      if Ascii.eqb c "%"%char then
        (fix star (s : list ascii) : bool :=
           orb (like p' s)
               (match s with [] => false | _ :: s' => star s' end)) s
      else if Ascii.eqb c "_"%char then
        match s with [] => false | _ :: s' => like p' s' end
      else
        match s with
        | [] => false
        | x :: s' => andb (Ascii.eqb (sql_upper c) (sql_upper x)) (like p' s')
        end
  end.

(** The pattern [f'%{query}%'] applied to a snippet. *)
Definition snippet_like (query snippet : string) : bool :=
  like ("%"%char :: list_ascii_of_string query ++ ["%"%char])
       (list_ascii_of_string snippet).

(** [ORDER BY id DESC]: insertion sort on the primary key. *)
Fixpoint insert_desc (r : document_row) (l : list document_row) : list document_row :=
  match l with
  | [] => [r]
  | x :: l' => if Z.leb (row_id x) (row_id r) then r :: x :: l'
               else x :: insert_desc r l'
  end.

Definition order_by_id_desc (t : table) : list document_row :=
  fold_right insert_desc [] t.

(** [LIMIT n]: a negative limit means no limit in SQLite. *)
Definition sql_limit {A} (n : Z) (l : list A) : list A :=
  if Z.ltb n 0 then l else firstn (Z.to_nat n) l.

(** The integers [sqlite3] binds to a [?]: those of 64 signed bits. For
    any other Python int, [execute] raises [OverflowError]. *)
Definition sqlite_int (n : Z) : bool :=
  andb (Z.leb (- 2 ^ 63) n) (Z.ltb n (2 ^ 63)).

(** [MetadataDB.search_documents]: binding [limit] comes first and can
    raise; then the SELECT. *)
Definition search_documents (t : table) (query : string) (limit : Z)
  : outcome (list document) :=
  if sqlite_int limit
  then Ok (map document_of_row
               (sql_limit limit
                  (order_by_id_desc
                     (filter (fun r => snippet_like query (row_snippet r)) t))))
  else Raise OverflowError.

(* ================================================================== *)
(** * The FAISS engine and the [FaissIndex] object                     *)
(* ================================================================== *)

Section FaissModel.

(** [F] stands for float32 components, [D] for the distances FAISS
    reports. [knn xb q k] is what the HNSW kernel answers for one query
    row: [k] (distance, label) pairs, label [-1] meaning no candidate. *)
Variables F D : Type.
Variable knn : list (list F) -> list F -> nat -> list (D * Z).

(** A numpy array of one or two dimensions; [Arr2 cols rows] has shape
    [(length rows, cols)]. *)
Inductive ndarray : Type :=
| Arr1 (v : list F)
| Arr2 (cols : nat) (rows : list (list F)).

Definition ndim (x : ndarray) : Z :=
  match x with Arr1 _ => 1 | Arr2 _ _ => 2 end.

(** [np.expand_dims(x, 0)] on a one-dimensional array. *)
Definition expand_dims (x : ndarray) : ndarray :=
  match x with
  | Arr1 v => Arr2 (List.length v) [v]
  | Arr2 c rows => Arr2 c rows
  end.

(** [if x.ndim == 1: x = np.expand_dims(x, 0)] *)
Definition as_batch (x : ndarray) : ndarray :=
  if Z.eqb (ndim x) 1 then expand_dims x else x.

(** [x.shape[-1]]: the length of a vector, the row length of a batch. *)
Definition columns (x : ndarray) : nat :=
  match x with
  | Arr1 v => List.length v
  | Arr2 cols _ => cols
  end.

(** [x.shape[0]] after [as_batch]: how many vectors the array holds. *)
Definition batch_rows (x : ndarray) : list (list F) :=
  match x with
  | Arr1 v => [v]
  | Arr2 _ rows => rows
  end.

(** A FAISS index object: its class name, its dimension [d] and the
    stored vectors in slot order. *)
Record faiss_index : Type := mk_index {
  ix_kind : string;
  ix_d : nat;
  ix_xb : list (list F)
}.

(** [index.ntotal] *)
Definition ntotal (ix : faiss_index) : Z := Z.of_nat (List.length (ix_xb ix)).

(** [faiss.IndexHNSWFlat(d, 32)] *)
Definition IndexHNSWFlat (d : nat) : faiss_index :=
  {| ix_kind := "IndexHNSWFlat"; ix_d := d; ix_xb := [] |}.

(** [index.add(x)]: the wrapper unpacks [n, d = x.shape] and asserts
    [d == self.d]; the rows are appended in order. *)
Definition index_add (ix : faiss_index) (x : ndarray) : outcome faiss_index :=
  match x with
  | Arr1 _ => Raise AssertionError
  | Arr2 cols rows =>
      if Nat.eqb cols (ix_d ix)
      then Ok {| ix_kind := ix_kind ix; ix_d := ix_d ix; ix_xb := ix_xb ix ++ rows |}
      else Raise AssertionError
  end.

(** [index.search(x, k)]: asserts [d == self.d] and [k > 0]; one list of
    (distance, label) pairs per query row. *)
Definition index_search (ix : faiss_index) (x : ndarray) (k : Z)
  : outcome (list (list (D * Z))) :=
  match x with
  | Arr1 _ => Raise AssertionError
  | Arr2 cols rows =>
      if andb (Nat.eqb cols (ix_d ix)) (Z.ltb 0 k)
      then Ok (map (fun q => knn (ix_xb ix) q (Z.to_nat k)) rows)
      else Raise AssertionError
  end.

(** ** Files *)

(** The file at [index_file]: a serialized index, the four bytes
    [faiss.write_index] writes for [None] and [faiss.read_index] reads
    back as [None], or bytes that [faiss.read_index] rejects. *)
Inductive index_blob : Type :=
| BlobIndex (ix : faiss_index)
| BlobNull
| BlobGarbage.

(** The file at [index_file + ".mapping.json"], as far as this model
    goes: a JSON object whose values are integers, which is what
    [json.dump] writes for [id_to_doc_id], or bytes that are not JSON.
    A file holding any other JSON value is not represented. *)
Inductive mapping_blob : Type :=
| MapJson (o : json_object)
| MapGarbage.

Definition read_index (b : index_blob) : outcome (option faiss_index) :=
  match b with
  | BlobIndex ix => Ok (Some ix)
  | BlobNull => Ok None
  | BlobGarbage => Raise (RuntimeError "read_index")
  end.

Definition json_load_file (b : mapping_blob) : outcome dict :=
  match b with
  | MapJson o => Ok (json_load o)
  | MapGarbage => Raise JSONDecodeError
  end.

(** What the module prints. *)
Inductive log_line : Type :=
| LoadedExisting (n : Z)      (* "Loaded existing FAISS index with {n} vectors" *)
| ErrorLoading (e : exn)      (* "Error loading index: {e}" *)
| CreatingNew                 (* "Creating new index..." *)
| CreatedNew (dim : nat)      (* "Created new FAISS index with dimension {dim}" *)
| SavedIndex (n : Z)          (* "Saved index with {n} vectors" *)
| NoIndexToSave.              (* "No index to save" *)

(** ** The state: one [FaissIndex] object and what it reaches *)

Record world : Type := mk_world {
  (* fields of the FaissIndex object *)
  embedding_dim : nat;
  index : option faiss_index;
  id_to_doc_id : dict;
  next_faiss_id : Z;
  (* the documents table behind self.metadata_db *)
  documents : table;
  (* the two persisted files *)
  index_file : option index_blob;
  mapping_file : option mapping_blob;
  (* CURRENT_TIMESTAMP, and the lines printed so far *)
  clock : Z;
  stdout : list log_line
}.

Definition set_index (v : option faiss_index) (w : world) : world :=
  mk_world (embedding_dim w) v (id_to_doc_id w) (next_faiss_id w)
           (documents w) (index_file w) (mapping_file w) (clock w) (stdout w).

Definition set_id_to_doc_id (v : dict) (w : world) : world :=
  mk_world (embedding_dim w) (index w) v (next_faiss_id w)
           (documents w) (index_file w) (mapping_file w) (clock w) (stdout w).

Definition set_next_faiss_id (v : Z) (w : world) : world :=
  mk_world (embedding_dim w) (index w) (id_to_doc_id w) v
           (documents w) (index_file w) (mapping_file w) (clock w) (stdout w).

Definition set_documents (v : table) (w : world) : world :=
  mk_world (embedding_dim w) (index w) (id_to_doc_id w) (next_faiss_id w)
           v (index_file w) (mapping_file w) (clock w) (stdout w).

Definition set_index_file (v : option index_blob) (w : world) : world :=
  mk_world (embedding_dim w) (index w) (id_to_doc_id w) (next_faiss_id w)
           (documents w) v (mapping_file w) (clock w) (stdout w).

Definition set_mapping_file (v : option mapping_blob) (w : world) : world :=
  mk_world (embedding_dim w) (index w) (id_to_doc_id w) (next_faiss_id w)
           (documents w) (index_file w) v (clock w) (stdout w).

Definition print (l : log_line) : M world unit :=
  modify (fun w =>
    mk_world (embedding_dim w) (index w) (id_to_doc_id w) (next_faiss_id w)
             (documents w) (index_file w) (mapping_file w) (clock w)
             (stdout w ++ [l])).

Local Open Scope py_scope.

(** [self.metadata_db.add_document(...)] *)
Definition metadata_add_document (a : doc_args) : M world Z :=
  fun w => let (id, t) := add_document (clock w) (documents w) a in
           (Ok id, set_documents t w).

(** [self.metadata_db.get_document(doc_id)] *)
Definition metadata_get_document (id : Z) : M world (option document) :=
  gets (fun w => get_document (documents w) id).

(** ** Loading and creating *)

(** [FaissIndex._create_new_index] *)
Definition _create_new_index : M world unit :=
  dim <- gets embedding_dim ;;
  modify (set_index (Some (IndexHNSWFlat dim))) ;;;
  print (CreatedNew dim).

(** The body of the [try] in [_load_or_create_index]. *)
Definition load_existing (blob : index_blob) : M world unit :=
  oix <- lift_outcome (read_index blob) ;;
  modify (set_index oix) ;;;
  mf <- gets mapping_file ;;
  match mf with
  | Some mblob =>
      d <- lift_outcome (json_load_file mblob) ;;
      modify (set_id_to_doc_id d) ;;;
      n <- match d with
           | [] => ret 0
           | _ :: _ => lift_outcome (max_plus_one (dict_keys d))
           end ;;
      modify (set_next_faiss_id n)
  | None => ret tt
  end ;;;
  loaded <- gets index ;;
  match loaded with
  | Some ix => print (LoadedExisting (ntotal ix))
  | None => raise AttributeError
  end.

(** [FaissIndex._load_or_create_index] *)
Definition _load_or_create_index : M world unit :=
  f <- gets index_file ;;
  match f with
  | Some blob =>
      try_except (load_existing blob)
                 (fun e => print (ErrorLoading e) ;;;
                           print CreatingNew ;;;
                           _create_new_index)
  | None => _create_new_index
  end.

(** [FaissIndex.__init__]: a new object over whatever files and table
    are there; [dim] is what [get_embedding_dim()] returned. The calls
    before the field resets, [MetadataDB(...)] and the two
    [os.makedirs], touch the file system only and are taken to have
    returned: the table and the two files are the state they leave. *)
Definition __init__ (dim : nat) : M world unit :=
  modify (fun w =>
    mk_world dim None [] 0
             (documents w) (index_file w) (mapping_file w) (clock w) (stdout w)) ;;;
  _load_or_create_index.

(** No object yet, no file, an empty table. *)
Definition empty_world : world := mk_world 0%nat None [] 0 [] None None 0 [].

(** A first [FaissIndex()] of dimension [dim] in an empty directory. *)
Definition fresh (dim : nat) : world := snd (__init__ dim empty_world).

(** ** Persisting *)

(** [FaissIndex._save_mapping]: the mapping file first, then the index.
    With [self.index] at [None], [faiss.write_index] still writes a
    file; [add_vector] and [save] test the index before they get here. *)
Definition _save_mapping : M world unit :=
  d <- gets id_to_doc_id ;;
  modify (set_mapping_file (Some (MapJson (json_dump d)))) ;;;
  oix <- gets index ;;
  match oix with
  | Some ix => modify (set_index_file (Some (BlobIndex ix)))
  | None => modify (set_index_file (Some BlobNull))
  end.

(** [FaissIndex.save], inside its [with self.lock]. [if self.index:] is
    the test against [None]: an index object is always true. *)
Definition save : M world unit :=
  oix <- gets index ;;
  match oix with
  | Some ix => _save_mapping ;;; print (SavedIndex (ntotal ix))
  | None => print NoIndexToSave
  end.

(** ** Adding *)

(** [if self.index is None: raise RuntimeError(...)] *)
Definition check_initialized : M world unit :=
  oix <- gets index ;;
  match oix with
  | None => raise (RuntimeError "Index not initialized")
  | Some _ => ret tt
  end.

(** [self.index.add(vector.astype('float32'))] after the [ndim] test. *)
Definition insert_vector (vector : ndarray) : M world unit :=
  oix <- gets index ;;
  match oix with
  | None => raise (RuntimeError "Index not initialized")
  | Some ix =>
      ix' <- lift_outcome (index_add ix (as_batch vector)) ;;
      modify (set_index (Some ix'))
  end.

(** The three statements under [# Store mapping]. *)
Definition record_mapping (doc : Z) : M world Z :=
  faiss_id <- gets next_faiss_id ;;
  modify (fun w => set_id_to_doc_id (dict_set (id_to_doc_id w) (KInt faiss_id) doc) w) ;;;
  modify (fun w => set_next_faiss_id (next_faiss_id w + 1) w) ;;;
  ret faiss_id.

(** [FaissIndex.add_vector], inside its [with self.lock]. *)
Definition add_vector (vector : ndarray) (a : doc_args) : M world Z :=
  check_initialized ;;;
  doc <- metadata_add_document a ;;
  insert_vector vector ;;;
  faiss_id <- record_mapping doc ;;
  _save_mapping ;;;
  ret faiss_id.

(** A sequence of [add_vector] calls, stopping at the first that raises;
    the slots returned, in call order. *)
Fixpoint run_adds (calls : list (ndarray * doc_args)) : M world (list Z) :=
  match calls with
  | [] => ret []
  | (v, a) :: calls' =>
      slot <- add_vector v a ;;
      slots <- run_adds calls' ;;
      ret (slot :: slots)
  end.

(** ** Searching *)

Record search_result : Type := mk_result {
  score : D;
  distance : D;
  faiss_id : Z;
  res_document : document
}.

(** The body of the [for dist, idx in zip(...)] loop. [if doc_id:] is
    false for a missing key and for the id 0. *)
Definition join_hit (results : list search_result) (hit : D * Z)
  : M world (list search_result) :=
  let (dist, idx) := hit in
  if Z.eqb idx (-1) then ret results
  else
    d <- gets id_to_doc_id ;;
    match dict_get d (KInt idx) with
    | None => ret results
    | Some doc =>
        if Z.eqb doc 0 then ret results
        else
          r <- metadata_get_document doc ;;
          match r with
          | Some rec => ret (results ++ [mk_result dist dist idx rec])
          | None => ret results
          end
    end.

(** [distances[0], indices[0]] zipped. *)
Definition first_row (rows : list (list (D * Z))) : outcome (list (D * Z)) :=
  match rows with
  | [] => Raise IndexError
  | r :: _ => Ok r
  end.

(** The statements of [search] up to the loop: [None] stands for the
    early [return []]. *)
Definition search_hits (query_vector : ndarray) (k : Z) : M world (option (list (D * Z))) :=
  oix <- gets index ;;
  match oix with
  | None => ret None
  | Some ix =>
      if Z.eqb (ntotal ix) 0 then ret None
      else
        rows <- lift_outcome (index_search ix (as_batch query_vector)
                                           (Z.min k (ntotal ix))) ;;
        row <- lift_outcome (first_row rows) ;;
        ret (Some row)
  end.

(** [FaissIndex.search] *)
Definition search (query_vector : ndarray) (k : Z) : M world (list search_result) :=
  h <- search_hits query_vector k ;;
  match h with
  | None => ret []
  | Some hits => for_each hits [] join_hit
  end.

(** ** Statistics *)

Record stats : Type := mk_stats {
  total_vectors : Z;
  stats_embedding_dim : nat;
  index_type : string
}.

(** [FaissIndex.get_stats] *)
Definition get_stats : M world stats :=
  w <- get ;;
  ret {| total_vectors := match index w with Some ix => ntotal ix | None => 0 end;
         stats_embedding_dim := embedding_dim w;
         index_type := match index w with Some ix => ix_kind ix | None => "None" end |}.

End FaissModel.

Arguments IndexHNSWFlat F d : clear implicits.
Arguments BlobGarbage {F}.
Arguments BlobNull {F}.
Arguments print {F} l _.
Arguments metadata_add_document {F} a _.
Arguments metadata_get_document {F} id _.
Arguments _create_new_index {F} _.
Arguments load_existing {F} blob _.
Arguments _load_or_create_index {F} _.
Arguments __init__ {F} dim _.
Arguments _save_mapping {F} _.
Arguments save {F} _.
Arguments check_initialized {F} _.
Arguments insert_vector {F} vector _.
Arguments record_mapping {F} doc _.
Arguments add_vector {F} vector a _.
Arguments join_hit {F D} results hit _.
Arguments first_row {D} rows.
Arguments get_stats {F} _.
Arguments mk_world {F}.
Arguments empty_world {F}.
Arguments fresh {F} dim.
Arguments run_adds {F} calls _.

(* ================================================================== *)
(** * Threads and the lock                                             *)
(* ================================================================== *)

(** [self.lock] is a [threading.Lock]. A call is cut at its statements:
    each step below is one statement group of the method, run on the
    shared object. A thread that reaches [with self.lock] while the lock
    is held cannot step. *)

Section Threads.

Variables F D : Type.
Variable knn : list (list F) -> list F -> nat -> list (D * Z).

(** Where a call of [add_vector] stands. *)
Inductive add_pc : Type :=
| AddBegin                          (* before [with self.lock] *)
| AddLocked                         (* lock taken *)
| AddMetadataWritten (doc : Z)      (* after metadata_db.add_document *)
| AddVectorInserted (doc : Z)       (* after index.add *)
| AddMappingRecorded (slot : Z)     (* after the mapping statements *)
| AddPersisted (slot : Z)           (* after _save_mapping, lock still held *)
| AddDone (r : outcome Z).          (* lock released, returned or raised *)

(** Where a call of [search] stands. *)
Inductive search_pc : Type :=
| SearchBegin
| SearchJoining (hits : list (D * Z)) (results : list (search_result D))
| SearchDone (r : outcome (list (search_result D))).

(** Where a call of [save] stands. *)
Inductive save_pc : Type :=
| SaveBegin
| SaveLocked
| SaveDone (r : outcome unit).

Inductive thread : Type :=
| TAdd (vector : ndarray F) (a : doc_args) (pc : add_pc)
| TSearch (query_vector : ndarray F) (k : Z) (pc : search_pc)
| TSave (pc : save_pc).

(** One statement group inside [with self.lock]: an exception leaves the
    block, which releases the lock. *)
Definition locked_step {A} (c : M (world F) A) (next : A -> add_pc) (w : world F)
  : add_pc * bool * world F :=
  match c w with
  | (Ok a, w') => (next a, true, w')
  | (Raise e, w') => (AddDone (Raise e), false, w')
  end.

Local Open Scope py_scope.

Definition add_step (vector : ndarray F) (a : doc_args) (pc : add_pc)
           (lock : bool) (w : world F) : option (add_pc * bool * world F) :=
  match pc with
  | AddBegin => if lock then None else Some (AddLocked, true, w)
  | AddLocked =>
      Some (locked_step (check_initialized ;;; metadata_add_document a)
                        AddMetadataWritten w)
  | AddMetadataWritten doc =>
      Some (locked_step (insert_vector vector) (fun _ => AddVectorInserted doc) w)
  | AddVectorInserted doc =>
      Some (locked_step (record_mapping doc) AddMappingRecorded w)
  | AddMappingRecorded slot =>
      Some (locked_step _save_mapping (fun _ => AddPersisted slot) w)
  | AddPersisted slot => Some (AddDone (Ok slot), false, w)
  | AddDone _ => None
  end.

(** [search] has no [with self.lock]: its steps neither test nor change
    the lock. *)
Definition search_step (query_vector : ndarray F) (k : Z) (pc : search_pc)
           (lock : bool) (w : world F) : option (search_pc * bool * world F) :=
  match pc with
  | SearchBegin =>
      match search_hits knn query_vector k w with
      | (Ok None, w') => Some (SearchDone (Ok []), lock, w')
      | (Ok (Some hits), w') => Some (SearchJoining hits [], lock, w')
      | (Raise e, w') => Some (SearchDone (Raise e), lock, w')
      end
  | SearchJoining [] results => Some (SearchDone (Ok results), lock, w)
  | SearchJoining (hit :: hits) results =>
      match join_hit results hit w with
      | (Ok results', w') => Some (SearchJoining hits results', lock, w')
      | (Raise e, w') => Some (SearchDone (Raise e), lock, w')
      end
  | SearchDone _ => None
  end.

Definition save_step (pc : save_pc) (lock : bool) (w : world F)
  : option (save_pc * bool * world F) :=
  match pc with
  | SaveBegin => if lock then None else Some (SaveLocked, true, w)
  | SaveLocked => let (r, w') := save w in Some (SaveDone r, false, w')
  | SaveDone _ => None
  end.

Definition thread_step (t : thread) (lock : bool) (w : world F)
  : option (thread * bool * world F) :=
  match t with
  | TAdd v a pc =>
      match add_step v a pc lock w with
      | Some (pc', l', w') => Some (TAdd v a pc', l', w')
      | None => None
      end
  | TSearch q k pc =>
      match search_step q k pc lock w with
      | Some (pc', l', w') => Some (TSearch q k pc', l', w')
      | None => None
      end
  | TSave pc =>
      match save_step pc lock w with
      | Some (pc', l', w') => Some (TSave pc', l', w')
      | None => None
      end
  end.

(** The object, its lock and the calls in flight. *)
Record config : Type := mk_config {
  shared : world F;
  lock_held : bool;
  threads : list thread
}.

Fixpoint list_update {A} (i : nat) (x : A) (l : list A) : list A :=
  match l, i with
  | [], _ => []
  | _ :: l', O => x :: l'
  | y :: l', S i' => y :: list_update i' x l'
  end.

(** Thread [i] takes its next step, if it can. *)
Definition step_thread (i : nat) (c : config) : option config :=
  match nth_error (threads c) i with
  | None => None
  | Some t =>
      match thread_step t (lock_held c) (shared c) with
      | None => None
      | Some (t', l', w') => Some (mk_config w' l' (list_update i t' (threads c)))
      end
  end.

(** A schedule names the thread that runs at each step. *)
Fixpoint run_schedule (s : list nat) (c : config) : option config :=
  match s with
  | [] => Some c
  | i :: s' =>
      match step_thread i c with
      | None => None
      | Some c' => run_schedule s' c'
      end
  end.

(** A thread running with nobody else, until it can step no more. *)
Fixpoint run_alone (fuel : nat) (t : thread) (lock : bool) (w : world F)
  : thread * bool * world F :=
  match fuel with
  | O => (t, lock, w)
  | S fuel' =>
      match thread_step t lock w with
      | None => (t, lock, w)
      | Some (t', l', w') => run_alone fuel' t' l' w'
      end
  end.

End Threads.

Arguments AddBegin : clear implicits.
Arguments SearchBegin {D}.
Arguments TSave {F D} pc.
Arguments TAdd {F D} vector a pc.

(* ================================================================== *)
(** * The chunkers of the ingesters                                    *)
(* ================================================================== *)

(** [ingesters/ingest_docs.py] and [ingesters/ingest_audio.py] cut a
    text into the chunks whose snippets [add_vector] stores. A text is
    the list of its characters. *)

Definition text : Type := list ascii.

(** How Python brings a slice bound into [0 .. len]: a negative bound
    counts from the end. *)
Definition clamp (len i : Z) : Z :=
  if Z.ltb i 0 then Z.max 0 (i + len) else Z.min i len.

(** [s[start:stop]] *)
Definition slice {A} (s : list A) (start stop : Z) : list A :=
  let n := Z.of_nat (List.length s) in
  firstn (Z.to_nat (clamp n stop - clamp n start)) (skipn (Z.to_nat (clamp n start)) s).

(** [s.rfind(ch, start, stop)] for a single character: the highest
    index in the clamped range that holds [ch], or -1. [pos] is the
    index of the head of [s], [best] the last match seen. *)
Fixpoint rfind_scan (ch : ascii) (s : text) (pos lo hi best : Z) : Z :=
  match s with
  | [] => best
  | c :: s' =>
      rfind_scan ch s' (pos + 1) lo hi
                 (if andb (andb (Z.leb lo pos) (Z.ltb pos hi)) (Ascii.eqb c ch)
                  then pos else best)
  end.

Definition rfind (s : text) (ch : ascii) (start stop : Z) : Z :=
  let n := Z.of_nat (List.length s) in
  rfind_scan ch s 0 (clamp n start) (clamp n stop) (-1).

(** [str.isspace] for one character below 256: tab to carriage return,
    the four separators 28..31, space, NEL and the no-break space. *)
Definition py_isspace (c : ascii) : bool :=
  let n := nat_of_ascii c in
  orb (andb (Nat.leb 9 n) (Nat.leb n 13))
      (orb (andb (Nat.leb 28 n) (Nat.leb n 32))
           (orb (Nat.eqb n 133) (Nat.eqb n 160))).

Fixpoint lstrip (s : text) : text :=
  match s with
  | [] => []
  | c :: s' => if py_isspace c then lstrip s' else s
  end.

Definition rstrip (s : text) : text := rev (lstrip (rev s)).

(** [s.strip()] *)
Definition strip (s : text) : text := rstrip (lstrip s).

(** [bool(s)] for a string or a list. *)
Definition nonempty {A} (s : list A) : bool :=
  match s with [] => false | _ :: _ => true end.

(** ** [chunk_text] *)

(** The end of the chunk that starts at [start]: [start + size], moved
    back to just after the last sentence mark, or else to the last
    space, when that lies in the second half of the window. *)
Definition chunk_end (t : text) (size start : Z) : Z :=
  let e := start + size in
  if Z.ltb e (Z.of_nat (List.length t)) then
    let sentence_end :=
      Z.max (Z.max (rfind t "."%char start e) (rfind t "!"%char start e))
            (rfind t "?"%char start e) in
    if Z.ltb (start + size / 2) sentence_end then sentence_end + 1
    else
      let word_end := rfind t " "%char start e in
      if Z.ltb (start + size / 2) word_end then word_end else e
  else e.

(** The [while start < len(text)] loop; [None] when the fuel runs out. *)
Fixpoint chunk_loop (fuel : nat) (t : text) (size overlap start : Z)
         (chunks : list text) : option (list text) :=
  match fuel with
  | O => None
  | S fuel' =>
      if Z.ltb start (Z.of_nat (List.length t)) then
        let e := chunk_end t size start in
        let chunk := strip (slice t start e) in
        let chunks' := if nonempty chunk then chunks ++ [chunk] else chunks in
        let start' := Z.max (start + 1) (e - overlap) in
        if Z.leb e start' then Some chunks'
        else chunk_loop fuel' t size overlap start' chunks'
      else Some chunks
  end.

(** [chunk_text(text, size, overlap)]; the defaults are 800 and 150. *)
Definition chunk_text (t : text) (size overlap : Z) : option (list text) :=
  if orb (negb (nonempty t)) (Z.leb (Z.of_nat (List.length t)) size)
  then Some (if nonempty t then [t] else [])
  else chunk_loop (S (List.length t)) t size overlap 0 [].

Definition CHUNK_SIZE : Z := 800.
Definition OVERLAP : Z := 150.

(** ** [chunk_transcript] *)

(** [s.split()]: the maximal runs of characters that are not white
    space. [word] is the run being read, in order. *)
Fixpoint split_scan (s word : text) : list text :=
  match s with
  | [] => if nonempty word then [word] else []
  | c :: s' =>
      if py_isspace c
      then (if nonempty word then word :: split_scan s' [] else split_scan s' [])
      else split_scan s' (word ++ [c])
  end.

Definition split (s : text) : list text := split_scan s [].

(** [" ".join(words)] *)
Fixpoint join_space (words : list text) : text :=
  match words with
  | [] => []
  | [w] => w
  | w :: rest => w ++ " "%char :: join_space rest
  end.

(** [range(0, n, step)] for a positive step. *)
Definition range_from_zero (n step : Z) : list Z :=
  filter (fun i => Z.ltb i n) (map (fun k => Z.of_nat k * step) (seq 0 (Z.to_nat n))).

(** The [for i in range(...)] loop with its [break]. *)
Fixpoint transcript_loop (words : list text) (chunk_size : Z) (starts : list Z)
         (chunks : list text) : list text :=
  match starts with
  | [] => chunks
  | i :: rest =>
      let chunks' := chunks ++ [join_space (slice words i (i + chunk_size))] in
      if Z.leb (Z.of_nat (List.length words)) (i + chunk_size) then chunks'
      else transcript_loop words chunk_size rest chunks'
  end.

(** [chunk_transcript(text, chunk_size, overlap)]; the defaults are 500
    and 100. [None] is the [ValueError] of [range] with step 0; a
    negative step gives the empty range. *)
Definition chunk_transcript (t : text) (chunk_size overlap : Z) : option (list text) :=
  if orb (negb (nonempty t)) (Z.leb (Z.of_nat (List.length t)) chunk_size)
  then Some (if nonempty t then [t] else [])
  else
    let words := split t in
    let step := chunk_size - overlap in
    if Z.eqb step 0 then None
    else if Z.ltb step 0 then Some []
    else Some (transcript_loop words chunk_size
                               (range_from_zero (Z.of_nat (List.length words)) step) []).

(** ** The snippet kept for a chunk *)

(** [chunk[:200] + "..." if len(chunk) > 200 else chunk] *)
Definition snippet_of (chunk : text) : text :=
  if Z.ltb 200 (Z.of_nat (List.length chunk))
  then slice chunk 0 200 ++ ["."%char; "."%char; "."%char]
  else chunk.

(* ================================================================== *)
(** * Concrete instances                                               *)
(* ================================================================== *)

(** An exact engine over integer vectors, squared Euclidean distance,
    ties kept in slot order: the instance the examples run on. *)
Definition sq_dist (a b : list Z) : Z :=
  fold_left Z.add (map (fun p => (fst p - snd p) * (fst p - snd p)) (combine a b)) 0.

Fixpoint insert_hit (h : Z * Z) (l : list (Z * Z)) : list (Z * Z) :=
  match l with
  | [] => [h]
  | x :: l' => if Z.leb (fst h) (fst x) then h :: x :: l' else x :: insert_hit h l'
  end.

Definition flat_knn (xb : list (list Z)) (q : list Z) (k : nat) : list (Z * Z) :=
  firstn k (fold_right insert_hit []
              (combine (map (sq_dist q) xb)
                       (map Z.of_nat (seq 0 (List.length xb))))).



(** The same index file beside a mapping file holding [{}]. *)
Definition index_with_empty_mapping : world Z :=
  mk_world 0%nat None [] 0 []
           (Some (BlobIndex (mk_index "IndexHNSWFlat" 2 [[1; 0]])))
           (Some (MapJson [])) 0 [].

(** The same index file beside a mapping file holding [{"5": 7}]: the
    largest key is 5, the index holds one vector. *)
Definition index_with_stale_mapping : world Z :=
  mk_world 0%nat None [] 0 []
           (Some (BlobIndex (mk_index "IndexHNSWFlat" 2 [[1; 0]])))
           (Some (MapJson [("5"%string, 7)])) 0 [].

Definition sample_args (name : string) : doc_args :=
  mk_args name "pdf" "text" (JDict [("page"%string, JInt 1)]) name.

(** Two vectors added to a new index of dimension 2. *)
Definition two_docs : world Z :=
  snd (add_vector (Arr1 [0; 1]) (sample_args "b")
         (snd (add_vector (Arr1 [1; 0]) (sample_args "a") (fresh 2)))).

(** Two calls in flight on a new index of dimension 2: an [add_vector]
    of [[1, 0]] and a [search] for the same vector with [k = 1]. *)
Definition add_and_search : config Z Z :=
  mk_config (fresh 2) false
            [TAdd (Arr1 [1; 0]) (sample_args "a") AddBegin;
             TSearch (Arr1 [1; 0]) 1 SearchBegin].

(** The configuration a schedule leads to, from [add_and_search]. *)
Definition after (schedule : list nat) : option (config Z Z) :=
  run_schedule flat_knn schedule add_and_search.

(** Two calls of [add_vector], for the concurrent examples. *)
Definition two_calls : list (ndarray Z * doc_args) :=
  [(Arr1 [1; 0], sample_args "a"); (Arr1 [0; 1], sample_args "b")].

(** Three documents inserted in turn. *)
Definition sample_table : table :=
  let t1 := snd (add_document 0 [] (mk_args "a.pdf" "pdf" "text" JNull "axb")) in
  let t2 := snd (add_document 1 t1 (mk_args "b.pdf" "pdf" "text" JNull "ABC")) in
  snd (add_document 2 t2 (mk_args "c.pdf" "pdf" "text" JNull "xyz")).

(* ================================================================== *)
(** * Predicates used in the statements                                *)
(* ================================================================== *)

(** ** Substring tests, for stating what [search_documents] returns *)






(** The invariant of a table filled by [add_document] only: ids grow
    with insertion and start at 1. *)
Definition table_ok (t : table) : Prop :=
  StronglySorted (fun a b => row_id a < row_id b) t /\
  Forall (fun r => 1 <= row_id r) t.

(** The id handed out last: 0 in an empty table. *)
Definition last_rowid (t : table) : Z := next_rowid t - 1.

(** The slots [0 .. n-1], in order. *)
Definition slots (n : nat) : list Z := map Z.of_nat (seq 0 n).

Section Predicates.

Variable F : Type.

(** The array passed to [add_vector] holds one vector: a 1-D array, or
    a 2-D array of one row, as the callers pass [embedding[0]]. *)
Definition one_vector (v : ndarray F) : Prop :=
  List.length (batch_rows v) = 1%nat.

(** The three structures agree on [n] entries: the index holds [n]
    vectors of the configured dimension, the mapping's keys are the
    slots [0 .. n-1], the next slot is [n], the table holds [n] rows
    with ids growing from 1, and slot [i] maps to the id of row [i]. *)
Record consistent (n : nat) (w : world F) : Prop := mk_consistent {
  cons_index : exists ix, index w = Some ix /\ ix_d ix = embedding_dim w /\
                          List.length (ix_xb ix) = n;
  cons_keys : dict_keys (id_to_doc_id w) = map KInt (slots n);
  cons_next : next_faiss_id w = Z.of_nat n;
  cons_docs : List.length (documents w) = n;
  cons_table : table_ok (documents w);
  cons_values : map snd (id_to_doc_id w) = map row_id (documents w)
}.

(** The index after [index.add] of an array of the right shape. *)
Definition index_after_add (ix : faiss_index F) (v : ndarray F) : faiss_index F :=
  mk_index (ix_kind ix) (ix_d ix) (ix_xb ix ++ batch_rows v).

(** The state a successful [add_vector] leaves. *)
Definition world_after_add (w : world F) (ix : faiss_index F) (v : ndarray F)
           (a : doc_args) : world F :=
  let d := dict_set (id_to_doc_id w) (KInt (next_faiss_id w)) (next_rowid (documents w)) in
  mk_world (embedding_dim w) (Some (index_after_add ix v)) d (next_faiss_id w + 1)
           (snd (add_document (clock w) (documents w) a))
           (Some (BlobIndex (index_after_add ix v)))
           (Some (MapJson (json_dump d)))
           (clock w) (stdout w).

(** [VectorIndex.count()]: [index.ntotal], 0 without an index. *)
Definition vector_count (w : world F) : Z :=
  match index w with Some ix => ntotal ix | None => 0 end.

Variable D : Type.

(** The record a hit joins to: none for the label [-1], for a slot the
    mapping does not know, for the document id 0 and for an id the table
    does not hold. *)
Definition hit_record (w : world F) (hit : D * Z) : option (search_result D) :=
  if Z.eqb (snd hit) (-1) then None
  else match dict_get (id_to_doc_id w) (KInt (snd hit)) with
       | None => None
       | Some doc =>
           if Z.eqb doc 0 then None
           else option_map (mk_result (fst hit) (fst hit) (snd hit))
                           (get_document (documents w) doc)
       end.

Definition hit_list (w : world F) (hit : D * Z) : list (search_result D) :=
  match hit_record w hit with Some r => [r] | None => [] end.

(** The hits that join, in the order the engine gave them. *)
Definition kept_hits (w : world F) (hits : list (D * Z)) : list (search_result D) :=
  flat_map (hit_list w) hits.

End Predicates.

(* ================================================================== *)
(** * Further predicates                                               *)
(* ================================================================== *)

(** The ids of the table are 1, 2, ..., n in insertion order. *)
Definition ids_dense (t : table) : Prop :=
  map row_id t = map (fun i => i + 1) (slots (List.length t)).

(** Every key is a string, as after [json.load]. *)
Definition str_keys (d : dict) : Prop :=
  Forall (fun kv => exists s, fst kv = KStr s) d.

(** Every key is an integer, as written by [add_vector]. *)
Definition int_keyed (d : dict) : Prop :=
  Forall (fun kv => exists n, fst kv = KInt n) d.

(** What [json.load] gives back for a dictionary written by
    [json.dump]: the same entries, each key as its decimal string. *)
Definition stringified (d : dict) : dict :=
  map (fun kv => (KStr (json_key (fst kv)), snd kv)) d.

(** What holds of every chunk the loop of [chunk_text] emits: it is
    not empty, it is a run of consecutive characters of the text, it has
    at most [size] characters when [size] is not negative, and stripping
    it changes nothing. *)
Definition loop_chunk (t : text) (size : Z) (c : text) : Prop :=
  c <> [] /\
  (exists pre post, t = pre ++ c ++ post) /\
  (0 <= size -> Z.of_nat (List.length c) <= size) /\
  strip c = c.

(** Position [i] of the text lies inside an occurrence of one of the
    chunks. *)
Definition covers (t : text) (chunks : list text) (i : nat) : Prop :=
  exists pre chunk post,
    In chunk chunks /\ t = pre ++ chunk ++ post /\
    (List.length pre <= i < List.length pre + List.length chunk)%nat.

(** Position [i] of the text holds a character that is not white space. *)
Definition visible (t : text) (i : nat) : Prop :=
  exists c, nth_error t i = Some c /\ py_isspace c = false.

Section Critical.

Variables F D : Type.

(** The call stands inside its [with self.lock] block. *)
Definition in_critical (t : thread F D) : bool :=
  match t with
  | TAdd _ _ pc =>
      match pc with
      | AddBegin | AddDone _ => false
      | _ => true
      end
  | TSearch _ _ _ => false
  | TSave pc =>
      match pc with
      | SaveLocked => true
      | _ => false
      end
  end.

Definition critical_count (l : list (thread F D)) : nat :=
  List.length (filter in_critical l).

(** The lock is held exactly when one call is inside its block. *)
Definition lock_agrees (c : config F D) : Prop :=
  critical_count (threads c) = if lock_held c then 1%nat else 0%nat.

(** What one step can do: [lock_move inside lock inside' lock'] relates
    whether the stepping call was inside its block and the lock before,
    to the same two after. *)
Inductive lock_move : bool -> bool -> bool -> bool -> Prop :=
| move_outside (lock : bool) : lock_move false lock false lock
| move_enter : lock_move false false true true
| move_inside (lock : bool) : lock_move true lock true true
| move_leave (lock : bool) : lock_move true lock false false.

(** One call of [add_vector] per element, none started. *)
Definition add_threads (calls : list (ndarray F * doc_args)) : list (thread F D) :=
  map (fun c => TAdd (fst c) (snd c) AddBegin) calls.

(** The calls numbered in [order] run one after the other, each to its
    end, a raise ending only its own call: the outcome of each, and the
    state left. *)
Fixpoint serial_adds (calls : list (ndarray F * doc_args)) (order : list nat)
         (w : world F) : list (nat * outcome Z) * world F :=
  match order with
  | [] => ([], w)
  | i :: rest =>
      match nth_error calls i with
      | Some (v, a) =>
          let (r, w1) := add_vector v a w in
          let (rs, w2) := serial_adds calls rest w1 in
          ((i, r) :: rs, w2)
      | None => serial_adds calls rest w
      end
  end.

(** Every call has returned or raised. *)
Definition all_done (l : list (thread F D)) : Prop :=
  Forall (fun t => exists v a r, t = TAdd v a (AddDone r)) l.

Variable knn : list (list F) -> list F -> nat -> list (D * Z).

(** The call of [add_vector v a], standing at [pc] with the lock in
    hand, goes on to finish as the whole method does from [base]. *)
Definition finishes (v : ndarray F) (a : doc_args) (pc : add_pc) (w base : world F)
  : Prop :=
  exists fuel : nat,
    run_alone knn fuel (TAdd v a pc) true w =
    (TAdd v a (AddDone (fst (add_vector v a base))), false, snd (add_vector v a base)).

(** The state of the calls while [done] have finished, in that order,
    and [cur], if any, holds the lock. *)
Definition serial_inv (calls : list (ndarray F * doc_args)) (w0 : world F)
           (done : list nat) (cur : option nat) (c : config F D) : Prop :=
  NoDup done /\
  (forall i, In i done -> (i < List.length calls)%nat) /\
  (forall k, cur = Some k -> (k < List.length calls)%nat /\ ~ In k done) /\
  List.length (threads c) = List.length calls /\
  (forall i v a, nth_error calls i = Some (v, a) ->
     exists pc, nth_error (threads c) i = Some (TAdd v a pc) /\
       ((In i done /\ exists r, pc = AddDone r /\
                                In (i, r) (fst (serial_adds calls done w0))) \/
        (~ In i done /\ cur <> Some i /\ pc = AddBegin) \/
        (~ In i done /\ cur = Some i /\ in_critical (@TAdd F D v a pc) = true /\
         finishes v a pc (shared c) (snd (serial_adds calls done w0))))) /\
  match cur with
  | None => lock_held c = false /\ shared c = snd (serial_adds calls done w0)
  | Some _ => lock_held c = true
  end.

End Critical.

(** The chunk of [chunk_transcript] for the start [j * step]: the words
    [words[j*step : j*step + chunk_size]] joined by spaces. *)
Definition window (words : list text) (chunk_size step : Z) (j : nat) : text :=
  join_space (slice words (Z.of_nat j * step) (Z.of_nat j * step + chunk_size)).

Definition not_space (c : ascii) : bool := negb (py_isspace c).

(** A word as [split] gives it: not empty and free of white space. *)
Definition clean_word (w : text) : Prop :=
  w <> [] /\ forallb not_space w = true.

(* ================================================================== *)
(** * Properties of [MetadataDB]                                       *)
(* ================================================================== *)


Section SortedLists.

Context {A : Type} (R : A -> A -> Prop).

Lemma StronglySorted_snoc (l : list A) (x : A) :
  StronglySorted R l -> Forall (fun y => R y x) l -> StronglySorted R (l ++ [x]).
Proof.
  induction 1 as [|a l Hs IH Ha]; intros Hx; simpl.
  - repeat constructor.
  - inversion Hx; subst. constructor; [apply IH; assumption|].
    apply Forall_app. split; [assumption | repeat constructor; assumption].
Qed.



End SortedLists.



Lemma list_max_bounds (xs : list Z) (x : Z) :
  x <= list_max x xs /\ Forall (fun y => y <= list_max x xs) xs.
Proof.
  unfold list_max. revert x.
  induction xs as [|a xs IH]; intros x; simpl.
  - split; [lia | constructor].
  - destruct (IH (Z.max x a)) as [H1 H2]. split; [lia|].
    constructor; [lia | exact H2].
Qed.

(** The next rowid is above every id in the table. *)
Lemma next_rowid_above (t : table) :
  Forall (fun r => row_id r < next_rowid t) t.
Proof.
  destruct t as [|r t]; [constructor|].
  simpl. destruct (list_max_bounds (map row_id t) (row_id r)) as [H1 H2].
  constructor; [lia|].
  rewrite Forall_map in H2. eapply Forall_impl; [|exact H2].
  simpl. intros; lia.
Qed.

Lemma next_rowid_positive (t : table) :
  Forall (fun r => 1 <= row_id r) t -> 1 <= next_rowid t.
Proof.
  destruct t as [|r t]; simpl; [lia|].
  intros H. inversion H; subst.
  pose proof (list_max_bounds (map row_id t) (row_id r)) as [H1 _]. lia.
Qed.

Lemma table_ok_nil : table_ok [].
Proof. split; constructor. Qed.

(** [add_document] keeps the invariant and hands out a new, larger id. *)
Lemma add_document_ok (now : Z) (t : table) (a : doc_args) :
  table_ok t ->
  table_ok (snd (add_document now t a)) /\
  fst (add_document now t a) = next_rowid t /\
  1 <= next_rowid t /\
  Forall (fun r => row_id r < next_rowid t) t.
Proof.
  intros [Hs Hp]. unfold add_document; simpl.
  pose proof (next_rowid_above t) as Habove.
  pose proof (next_rowid_positive Hp) as Hpos.
  repeat split; try assumption.
  - apply StronglySorted_snoc; [assumption|].
    eapply Forall_impl; [|exact Habove]. simpl. intros; assumption.
  - apply Forall_app. split; [assumption|]. repeat constructor. simpl. assumption.
Qed.

Lemma insert_desc_smallest (r : document_row) (l : list document_row) :
  Forall (fun x => row_id r < row_id x) l -> insert_desc r l = l ++ [r].
Proof.
  induction 1 as [|x l Hx Hl IH]; simpl; [reflexivity|].
  destruct (Z.leb_spec (row_id x) (row_id r)); [lia|].
  rewrite IH. reflexivity.
Qed.

(** On ids that grow with insertion, [ORDER BY id DESC] is the reverse of
    the insertion order. *)
Lemma order_by_id_desc_rev (t : table) :
  StronglySorted (fun a b => row_id a < row_id b) t -> order_by_id_desc t = rev t.
Proof.
  induction 1 as [|r t Hs IH Hr]; simpl; [reflexivity|].
  unfold order_by_id_desc in *. rewrite IH.
  apply insert_desc_smallest.
  rewrite Forall_forall in *. intros x Hx. apply Hr. apply in_rev. exact Hx.
Qed.

Lemma sql_limit_length {A} (n : Z) (l : list A) :
  0 <= n -> Z.of_nat (List.length (sql_limit n l)) <= n.
Proof.
  intros Hn. unfold sql_limit.
  destruct (Z.ltb_spec n 0); [lia|].
  rewrite length_firstn. lia.
Qed.

(** ** LIKE against substring containment *)

Lemma like_percent (p s : list ascii) :
  like ("%"%char :: p) s =
  orb (like p s) (match s with [] => false | _ :: s' => like ("%"%char :: p) s' end).
Proof. destruct s; reflexivity. Qed.

Lemma like_only_percent (s : list ascii) : like ["%"%char] s = true.
Proof.
  induction s as [|x s IH]; [reflexivity|].
  rewrite like_percent. rewrite IH. apply orb_true_r.
Qed.





Lemma sample_table_ok : table_ok sample_table.
Proof. split; repeat constructor; simpl; lia. Qed.



Lemma sqlite_int_inside (n : Z) : 0 <= n < 2 ^ 63 -> sqlite_int n = true.
Proof.
  intros H. unfold sqlite_int. apply andb_true_iff. split.
  - apply Z.leb_le. lia.
  - apply Z.ltb_lt. lia.
Qed.




(* ================================================================== *)
(** * Properties of [add_vector]                                       *)
(* ================================================================== *)

Section AddProps.

Variable F : Type.
Implicit Types (w : world F) (v : ndarray F) (a : doc_args) (ix : faiss_index F).

Lemma index_add_as_batch ix v :
  index_add ix (as_batch v) =
  if Nat.eqb (columns v) (ix_d ix) then Ok (index_after_add ix v)
  else Raise AssertionError.
Proof. destruct v; reflexivity. Qed.

(** [add_vector], statement by statement, as one case analysis. *)
Lemma add_vector_cases v a w :
  add_vector v a w =
  match index w with
  | None => (Raise (RuntimeError "Index not initialized"), w)
  | Some ix =>
      if Nat.eqb (columns v) (ix_d ix)
      then (Ok (next_faiss_id w), world_after_add w ix v a)
      else (Raise AssertionError,
            set_documents (snd (add_document (clock w) (documents w) a)) w)
  end.
Proof.
  unfold add_vector, check_initialized, insert_vector, metadata_add_document,
    record_mapping, _save_mapping, bind, gets, modify, raise, ret, lift_outcome.
  destruct w as [dim oix d n docs fi fm clk out]; simpl.
  destruct oix as [ix|]; simpl; [|reflexivity].
  rewrite index_add_as_batch.
  destruct (Nat.eqb (columns v) (ix_d ix)); reflexivity.
Qed.

Lemma next_rowid_after_add (now : Z) (t : table) a :
  next_rowid (snd (add_document now t a)) = next_rowid t + 1.
Proof.
  unfold add_document; simpl.
  destruct t as [|r t]; [reflexivity|].
  simpl. rewrite map_app. simpl map.
  unfold list_max. rewrite fold_left_app. simpl.
  pose proof (list_max_bounds (map row_id t) (row_id r)) as [H _].
  unfold list_max in H. lia.
Qed.


(** C1 (amended). A vector whose length differs from the dimension of
    the index the object holds makes [add_vector] raise the engine's
    [AssertionError], after the metadata row was written: the index, the
    mapping, the next slot and both files are as before, and the table
    has gained one row, so the last assigned document id has advanced by
    one. The configured [embedding_dim] plays no part. *)
Theorem add_vector_wrong_dimension v a w ix :
  index w = Some ix ->
  columns v <> ix_d ix ->
  fst (add_vector v a w) = Raise AssertionError /\
  index (snd (add_vector v a w)) = index w /\
  id_to_doc_id (snd (add_vector v a w)) = id_to_doc_id w /\
  next_faiss_id (snd (add_vector v a w)) = next_faiss_id w /\
  index_file (snd (add_vector v a w)) = index_file w /\
  mapping_file (snd (add_vector v a w)) = mapping_file w /\
  documents (snd (add_vector v a w)) = snd (add_document (clock w) (documents w) a) /\
  last_rowid (documents (snd (add_vector v a w))) = last_rowid (documents w) + 1.
Proof.
  intros Hix Hv. rewrite add_vector_cases, Hix.
  destruct (Nat.eqb_spec (columns v) (ix_d ix)) as [E|_]; [contradiction|].
  cbn [fst snd]. unfold set_documents.
  cbn [index id_to_doc_id next_faiss_id index_file mapping_file documents].
  repeat split; try assumption.
  unfold last_rowid. rewrite next_rowid_after_add. lia.
Qed.

(** C6 (amended). Failures reach the caller as exceptions. With an index
    in place, a vector of another dimension makes [add_vector] raise
    [AssertionError]; a query of another dimension makes [search] raise
    it too when the index holds vectors, and return the empty list,
    leaving the state alone, when the index is empty. *)
Theorem wrong_dimension_raises
        (D : Type) (knn : list (list F) -> list F -> nat -> list (D * Z))
        v (q : ndarray F) (k : Z) a w ix :
  index w = Some ix ->
  columns v <> ix_d ix ->
  columns q <> ix_d ix ->
  fst (add_vector v a w) = Raise AssertionError /\
  (ntotal ix = 0 -> search knn q k w = (Ok [], w)) /\
  (ntotal ix <> 0 -> search knn q k w = (Raise AssertionError, w)).
Proof.
  intros Hix Hv Hq. split; [|split].
  - rewrite add_vector_cases, Hix.
    destruct (Nat.eqb_spec (columns v) (ix_d ix)); [contradiction | reflexivity].
  - intros Hn. unfold search, search_hits, bind, gets, ret. simpl. rewrite Hix.
    apply Z.eqb_eq in Hn. rewrite Hn. reflexivity.
  - intros Hn. unfold search, search_hits, bind, gets, ret, lift_outcome. simpl.
    rewrite Hix. apply Z.eqb_neq in Hn. rewrite Hn.
    assert (E : index_search knn ix (as_batch q) (Z.min k (ntotal ix)) = Raise AssertionError).
    { destruct q as [x|c rows]; simpl in *;
        match goal with
        | |- context [Nat.eqb ?n ?m] => destruct (Nat.eqb_spec n m); [contradiction | reflexivity]
        end. }
    rewrite E. reflexivity.
Qed.

(** Without an index, [add_vector] raises before doing anything. *)
Lemma add_vector_not_initialized v a w :
  index w = None ->
  add_vector v a w = (Raise (RuntimeError "Index not initialized"), w).
Proof. intros H. rewrite add_vector_cases, H. reflexivity. Qed.

(** A vector of the index's dimension is accepted: the call returns the
    next slot. *)
Lemma add_vector_succeeds v a w ix :
  index w = Some ix ->
  columns v = ix_d ix ->
  add_vector v a w = (Ok (next_faiss_id w), world_after_add w ix v a).
Proof.
  intros H Hc. rewrite add_vector_cases, H.
  rewrite (proj2 (Nat.eqb_eq _ _) Hc). reflexivity.
Qed.

End AddProps.

(** C1, as stated, fails on the code: the metadata row is inserted before
    the engine checks the shape, so the last assigned id moves. *)
Lemma add_vector_wrong_dimension_counterexample :
  columns (Arr1 [1; 0; 3]) <> embedding_dim (@fresh Z 2) /\
  fst (add_vector (Arr1 [1; 0; 3]) (sample_args "a") (fresh 2)) = Raise AssertionError /\
  last_rowid (documents (snd (add_vector (Arr1 [1; 0; 3]) (sample_args "a") (fresh 2))))
    <> last_rowid (documents (@fresh Z 2)).
Proof.
  split; [|split].
  - vm_compute. intros H. discriminate H.
  - reflexivity.
  - vm_compute. intros H. discriminate H.
Qed.

Lemma add_vector_wrong_dimension_witness :
  fst (add_vector (Arr1 [1; 0; 3]) (sample_args "a") (@fresh Z 2)) = Raise AssertionError /\
  last_rowid (documents (snd (add_vector (Arr1 [1; 0; 3]) (sample_args "a") (@fresh Z 2))))
    = last_rowid (documents (@fresh Z 2)) + 1.
Proof.
  assert (H1 : index (@fresh Z 2) = Some (IndexHNSWFlat Z 2)) by reflexivity.
  assert (H3 : columns (Arr1 [1; 0; 3]) <> ix_d (IndexHNSWFlat Z 2))
    by (vm_compute; intros H; discriminate H).
  destruct (@add_vector_wrong_dimension Z (Arr1 [1; 0; 3]) (sample_args "a")
              (fresh 2) (IndexHNSWFlat Z 2) H1 H3)
    as (Hr & _ & _ & _ & _ & _ & _ & Hl).
  split; assumption.
Defined.

(** The dimension that counts is the index's own. An object configured
    for dimension 3 over the index file of an object of dimension 2
    holds an index of dimension 2: it takes a vector of length 2 and
    refuses one of length 3. *)
Example add_vector_checks_index_dimension :
  embedding_dim (snd (__init__ 3 (snd (save (@fresh Z 2))))) = 3%nat /\
  fst (add_vector (Arr1 [1; 0]) (sample_args "a")
         (snd (__init__ 3 (snd (save (@fresh Z 2)))))) = Ok 0 /\
  fst (add_vector (Arr1 [1; 0; 3]) (sample_args "a")
         (snd (__init__ 3 (snd (save (@fresh Z 2)))))) = Raise AssertionError.
Proof. repeat split; vm_compute; reflexivity. Qed.

(** C6, as stated, fails on the code: neither method catches anything,
    so a wrong-dimension vector or query ends in an exception at the
    caller, not in a result value or an empty list. *)
Lemma failures_raise_counterexample :
  fst (add_vector (Arr1 [1; 0; 3]) (sample_args "a") (@fresh Z 2)) = Raise AssertionError /\
  fst (search flat_knn (Arr1 [1; 0; 3]) 8
         (snd (add_vector (Arr1 [1; 0]) (sample_args "a") (@fresh Z 2))))
    = Raise AssertionError.
Proof. split; reflexivity. Qed.

Lemma wrong_dimension_raises_witness :
  fst (add_vector (Arr1 [1; 0; 3]) (sample_args "b")
         (snd (add_vector (Arr1 [1; 0]) (sample_args "a") (@fresh Z 2))))
    = Raise AssertionError /\
  fst (search flat_knn (Arr1 [1; 0; 3]) 8
         (snd (add_vector (Arr1 [1; 0]) (sample_args "a") (@fresh Z 2))))
    = Raise AssertionError.
Proof.
  set (w := snd (add_vector (Arr1 [1; 0]) (sample_args "a") (@fresh Z 2))).
  set (ix := mk_index "IndexHNSWFlat" 2 [[1; 0]]).
  assert (H1 : index w = Some ix) by reflexivity.
  assert (H2 : columns (Arr1 [1; 0; 3]) <> ix_d ix)
    by (vm_compute; intros H; discriminate H).
  destruct (@wrong_dimension_raises Z Z flat_knn (Arr1 [1; 0; 3]) (Arr1 [1; 0; 3]) 8
              (sample_args "b") w ix H1 H2 H2) as (Ha & _ & Hs).
  split; [exact Ha|].
  rewrite Hs; [reflexivity|]. vm_compute. intros H. discriminate H.
Defined.

(* ================================================================== *)
(** * Properties of [search]                                           *)
(* ================================================================== *)

Section SearchProps.

Variables F D : Type.
Variable knn : list (list F) -> list F -> nat -> list (D * Z).
Implicit Types (w : world F) (q : ndarray F) (ix : faiss_index F)
         (hit : D * Z) (hits : list (D * Z)) (rs : list (search_result D)).

(** One turn of the loop appends the joined record, or nothing. *)
Lemma join_hit_spec rs hit w :
  join_hit rs hit w = (Ok (rs ++ hit_list w hit), w).
Proof.
  unfold join_hit, hit_list, hit_record, metadata_get_document, bind, gets, ret.
  destruct hit as [dist idx]. cbn [fst snd].
  destruct (Z.eqb idx (-1)); [rewrite app_nil_r; reflexivity|].
  destruct (dict_get (id_to_doc_id w) (KInt idx)) as [doc|];
    [|rewrite app_nil_r; reflexivity].
  destruct (Z.eqb doc 0); [rewrite app_nil_r; reflexivity|].
  destruct (get_document (documents w) doc); simpl;
    [reflexivity | rewrite app_nil_r; reflexivity].
Qed.

(** The whole loop: it never raises and never writes. *)
Lemma join_loop_spec hits rs w :
  for_each hits rs (@join_hit F D) w = (Ok (rs ++ kept_hits w hits), w).
Proof.
  revert rs. induction hits as [|h hits IH]; intros rs; simpl.
  - unfold ret. rewrite app_nil_r. reflexivity.
  - unfold bind. rewrite join_hit_spec. rewrite IH.
    unfold kept_hits. simpl.
    rewrite app_assoc. reflexivity.
Qed.

(** What the statements before the loop produce. *)
Lemma search_hits_cases q k w :
  search_hits knn q k w =
  match index w with
  | None => (Ok None, w)
  | Some ix =>
      if Z.eqb (ntotal ix) 0 then (Ok None, w)
      else match index_search knn ix (as_batch q) (Z.min k (ntotal ix)) with
           | Raise e => (Raise e, w)
           | Ok [] => (Raise IndexError, w)
           | Ok (row :: _) => (Ok (Some row), w)
           end
  end.
Proof.
  unfold search_hits, bind, gets, ret, lift_outcome. simpl.
  destruct (index w) as [ix|]; [|reflexivity].
  destruct (Z.eqb (ntotal ix) 0); [reflexivity|].
  destruct (index_search knn ix (as_batch q) (Z.min k (ntotal ix))) as [[|row rows]|e];
    reflexivity.
Qed.

Lemma search_hits_readonly q k w : snd (search_hits knn q k w) = w.
Proof.
  rewrite search_hits_cases.
  destruct (index w) as [ix|]; [|reflexivity].
  destruct (Z.eqb (ntotal ix) 0); [reflexivity|].
  destruct (index_search knn ix (as_batch q) (Z.min k (ntotal ix))) as [[|row rows]|e];
    reflexivity.
Qed.

(** [search] in terms of its two halves. *)
Lemma search_after_hits q k w :
  search knn q k w =
  match fst (search_hits knn q k w) with
  | Ok None => (Ok [], w)
  | Ok (Some hits) => (Ok (kept_hits w hits), w)
  | Raise e => (Raise e, w)
  end.
Proof.
  unfold search, bind.
  pose proof (search_hits_readonly q k w) as Hw.
  destruct (search_hits knn q k w) as [[[hits|]|e] w']; simpl in Hw; subst w'; simpl.
  - rewrite join_loop_spec. reflexivity.
  - reflexivity.
  - reflexivity.
Qed.

(** C10. [search] writes nothing: the index, the mapping, the next slot,
    the table, the files and the log are the same after the call, whether
    it returns or raises. *)
Theorem search_mutates_nothing q k w :
  snd (search knn q k w) = w.
Proof.
  rewrite search_after_hits.
  destruct (fst (search_hits knn q k w)) as [[hits|]|e]; reflexivity.
Qed.






(** ** How many hits are kept, and in which order *)





Lemma dict_get_in_keys (d : dict) (k : pykey) :
  In k (dict_keys d) -> exists v, dict_get d k = Some v.
Proof.
  induction d as [|[k' v'] d IH]; simpl; [contradiction|].
  intros [->|Hin].
  - exists v'. destruct k; simpl;
      [rewrite Z.eqb_refl | rewrite String.eqb_refl]; reflexivity.
  - destruct (pykey_eqb k' k); [exists v'; reflexivity | apply IH; exact Hin].
Qed.

Lemma dict_get_in_values (d : dict) (k : pykey) (v : Z) :
  dict_get d k = Some v -> In v (map snd d).
Proof.
  induction d as [|[k' v'] d IH]; simpl; [discriminate|].
  destruct (pykey_eqb k' k).
  - intros H. inversion H. left. reflexivity.
  - intros H. right. apply IH. exact H.
Qed.

Lemma get_document_of_row (t : table) (r : document_row) :
  In r t -> get_document t (row_id r) <> None.
Proof.
  intros Hin. unfold get_document.
  destruct (find (fun r0 => Z.eqb (row_id r0) (row_id r)) t) eqn:Hf; [discriminate|].
  apply (find_none _ _ Hf) in Hin. rewrite Z.eqb_refl in Hin. discriminate.
Qed.

Lemma in_slots (n : nat) (i : Z) : 0 <= i < Z.of_nat n -> In i (slots n).
Proof.
  intros Hi. unfold slots. apply in_map_iff. exists (Z.to_nat i).
  split; [lia|]. apply in_seq. lia.
Qed.

(** In a consistent state every live slot joins. *)
Lemma consistent_hit_joins n w hit :
  consistent n w -> 0 <= snd hit < Z.of_nat n -> hit_record w hit <> None.
Proof.
  intros Hc Hi. unfold hit_record.
  destruct (Z.eqb_spec (snd hit) (-1)); [lia|].
  destruct (@dict_get_in_keys (id_to_doc_id w) (KInt (snd hit))) as [doc Hdoc].
  { rewrite (cons_keys Hc). apply in_map. apply in_slots. exact Hi. }
  rewrite Hdoc.
  pose proof (dict_get_in_values _ _ Hdoc) as Hv.
  rewrite (cons_values Hc) in Hv. apply in_map_iff in Hv.
  destruct Hv as (r & Hr & Hin).
  destruct (cons_table Hc) as [_ Hpos].
  rewrite Forall_forall in Hpos. specialize (Hpos r Hin).
  destruct (Z.eqb_spec doc 0); [lia|].
  subst doc. pose proof (get_document_of_row _ _ Hin) as Hg.
  destruct (get_document (documents w) (row_id r)); [discriminate | contradiction].
Qed.

(** Over a missing or empty index, [search] returns the empty list for
    any query and any [k]. *)
Lemma search_empty_index q k w :
  vector_count w = 0 -> search knn q k w = (Ok [], w).
Proof.
  unfold vector_count. intros H.
  rewrite search_after_hits, search_hits_cases.
  destruct (index w) as [ix|]; [|reflexivity].
  rewrite H. reflexivity.
Qed.


End SearchProps.


Example search_leaves_two_docs_unchanged :
  snd (search flat_knn (Arr1 [1; 0]) 2 two_docs) = two_docs.
Proof. reflexivity. Qed.



(* ================================================================== *)
(** * The three structures stay in step                                *)
(* ================================================================== *)

Lemma pykey_eqb_eq (a b : pykey) : pykey_eqb a b = true <-> a = b.
Proof.
  destruct a as [x|x], b as [y|y]; simpl; split; intros H;
    try discriminate; try (inversion H; subst).
  - apply Z.eqb_eq in H. subst. reflexivity.
  - apply Z.eqb_refl.
  - apply String.eqb_eq in H. subst. reflexivity.
  - apply String.eqb_refl.
Qed.

(** Assigning to a key the dictionary does not hold appends it. *)
Lemma dict_set_new (d : dict) (k : pykey) (v : Z) :
  ~ In k (dict_keys d) -> dict_set d k v = d ++ [(k, v)].
Proof.
  induction d as [|[k' v'] d IH]; simpl; intros Hn; [reflexivity|].
  destruct (pykey_eqb k' k) eqn:E.
  - apply pykey_eqb_eq in E. exfalso. apply Hn. left. exact E.
  - rewrite IH; [reflexivity|]. intros Hin. apply Hn. right. exact Hin.
Qed.

Lemma slots_succ (n : nat) : slots (S n) = slots n ++ [Z.of_nat n].
Proof. unfold slots. rewrite seq_S, map_app. reflexivity. Qed.

Lemma slots_bound (n : nat) (i : Z) : In i (slots n) -> 0 <= i < Z.of_nat n.
Proof.
  unfold slots. intros H. apply in_map_iff in H. destruct H as (j & <- & Hj).
  apply in_seq in Hj. lia.
Qed.

Lemma slots_length (n : nat) : List.length (slots n) = n.
Proof. unfold slots. rewrite length_map, length_seq. reflexivity. Qed.

Section Invariant.

Variable F : Type.
Implicit Types (w : world F) (v : ndarray F) (a : doc_args).

(** A new object over an empty directory and an empty table. *)
Lemma fresh_consistent (dim : nat) : consistent 0 (@fresh F dim).
Proof.
  constructor; simpl; try reflexivity.
  - eexists. repeat split.
  - apply table_ok_nil.
Qed.

(** One successful call, on one vector, moves a consistent state to the
    next and returns the slot that was free. *)
Lemma add_vector_consistent (n : nat) w v a (slot : Z) (w' : world F) :
  consistent n w ->
  one_vector v ->
  add_vector v a w = (Ok slot, w') ->
  slot = Z.of_nat n /\ consistent (S n) w'.
Proof.
  intros Hc Hone Hadd.
  destruct (cons_index Hc) as (ix & Hix & Hd & Hlen).
  rewrite add_vector_cases, Hix in Hadd.
  destruct (Nat.eqb (columns v) (ix_d ix)); [|discriminate].
  inversion Hadd as [[Hslot Hw]]. clear Hadd.
  split; [apply (cons_next Hc)|].
  assert (Hnew : ~ In (KInt (next_faiss_id w)) (dict_keys (id_to_doc_id w))).
  { rewrite (cons_keys Hc), (cons_next Hc). intros Hin.
    apply in_map_iff in Hin. destruct Hin as (i & Hi & Hin).
    inversion Hi; subst i. apply slots_bound in Hin. lia. }
  destruct (add_document_ok (clock w) a (cons_table Hc)) as (Hok & _ & _ & _).
  unfold world_after_add. rewrite (@dict_set_new _ _ (next_rowid (documents w)) Hnew).
  constructor; cbn [index embedding_dim id_to_doc_id next_faiss_id documents].
  - eexists. split; [reflexivity|]. split; [exact Hd|].
    unfold index_after_add; simpl. rewrite length_app, Hlen.
    unfold one_vector in Hone. rewrite Hone. lia.
  - pose proof (cons_keys Hc) as Hk. unfold dict_keys in *.
    rewrite map_app, Hk, slots_succ, map_app.
    simpl. rewrite (cons_next Hc). reflexivity.
  - rewrite (cons_next Hc). lia.
  - unfold add_document; simpl. rewrite length_app, (cons_docs Hc). simpl. lia.
  - exact Hok.
  - unfold add_document; simpl. rewrite !map_app, (cons_values Hc). reflexivity.
Qed.

Lemma run_adds_consistent (calls : list (ndarray F * doc_args)) :
  forall (n : nat) w (got : list Z) (w' : world F),
    consistent n w ->
    Forall (fun c => one_vector (fst c)) calls ->
    run_adds calls w = (Ok got, w') ->
    got = map Z.of_nat (seq n (List.length calls)) /\
    consistent (n + List.length calls) w'.
Proof.
  induction calls as [|[v a] calls IH]; intros n w got w' Hc Hall Hrun.
  - simpl in Hrun. inversion Hrun; subst. simpl.
    rewrite Nat.add_0_r. split; [reflexivity | exact Hc].
  - inversion Hall as [|c cs Hone Hall']; subst.
    simpl in Hrun. unfold bind in Hrun.
    destruct (add_vector v a w) as [[slot|e] w1] eqn:Hadd; [|discriminate].
    destruct (run_adds calls w1) as [[got1|e] w2] eqn:Hrest; [|discriminate].
    inversion Hrun; subst. clear Hrun.
    destruct (@add_vector_consistent n w v a slot w1 Hc Hone Hadd) as [-> Hc1].
    destruct (IH (S n) w1 got1 w' Hc1 Hall' Hrest) as [-> Hc2].
    simpl. split; [reflexivity|].
    replace (n + S (List.length calls))%nat with (S n + List.length calls)%nat by lia.
    exact Hc2.
Qed.

(** Vectors of the configured dimension are all accepted. *)
Lemma run_adds_succeeds (calls : list (ndarray F * doc_args)) :
  forall (n : nat) w,
    consistent n w ->
    Forall (fun c => one_vector (fst c) /\ columns (fst c) = embedding_dim w) calls ->
    exists got w', run_adds calls w = (Ok got, w').
Proof.
  induction calls as [|[v a] calls IH]; intros n w Hc Hall.
  - exists [], w. reflexivity.
  - inversion Hall as [|c cs [Hone Hcol] Hall']; subst. simpl in Hone, Hcol.
    destruct (cons_index Hc) as (ix & Hix & Hd & Hlen).
    assert (Hadd : add_vector v a w = (Ok (next_faiss_id w), world_after_add w ix v a)).
    { apply add_vector_succeeds; [exact Hix | congruence]. }
    destruct (@add_vector_consistent n w v a _ _ Hc Hone Hadd) as [_ Hc1].
    destruct (IH (S n) (world_after_add w ix v a) Hc1) as (got & w' & Hrun).
    { eapply Forall_impl; [|exact Hall']. intros c Hcc. exact Hcc. }
    exists (next_faiss_id w :: got), w'.
    simpl. unfold bind. rewrite Hadd, Hrun. reflexivity.
Qed.

(** C3. After any sequence of successful [add_vector] calls on a new
    index, each given one vector, the slots returned are [0 .. n-1], and
    the index count, the size of the mapping and the number of document
    ids handed out are all [n]; the mapping's keys are exactly the slots
    [0 .. next_faiss_id - 1], and [next_faiss_id] is the index count. *)
Theorem adds_keep_structures_in_step (dim : nat) (calls : list (ndarray F * doc_args))
        (got : list Z) (w' : world F) :
  Forall (fun c => one_vector (fst c)) calls ->
  run_adds calls (fresh dim) = (Ok got, w') ->
  got = slots (List.length calls) /\
  vector_count w' = Z.of_nat (List.length calls) /\
  dict_len (id_to_doc_id w') = Z.of_nat (List.length calls) /\
  Z.of_nat (List.length (documents w')) = Z.of_nat (List.length calls) /\
  dict_keys (id_to_doc_id w') = map KInt (slots (Z.to_nat (next_faiss_id w'))) /\
  next_faiss_id w' = vector_count w' /\
  consistent (List.length calls) w'.
Proof.
  intros Hall Hrun.
  destruct (@run_adds_consistent calls 0%nat (fresh dim) got w'
              (fresh_consistent dim) Hall Hrun) as [Hgot Hc].
  simpl in Hc.
  destruct (cons_index Hc) as (ix & Hix & Hd & Hlen).
  assert (Hcount : vector_count w' = Z.of_nat (List.length calls)).
  { unfold vector_count, ntotal. rewrite Hix, Hlen. reflexivity. }
  split; [exact Hgot|]. split; [exact Hcount|].
  split.
  { unfold dict_len. rewrite <- (length_map fst). fold (dict_keys (id_to_doc_id w')).
    rewrite (cons_keys Hc), length_map, slots_length. reflexivity. }
  split; [rewrite (cons_docs Hc); reflexivity|].
  split; [rewrite (cons_next Hc), Nat2Z.id; apply (cons_keys Hc)|].
  split; [rewrite Hcount; apply (cons_next Hc) | exact Hc].
Qed.

End Invariant.

Lemma adds_keep_structures_in_step_witness :
  run_adds [(Arr1 [1; 0], sample_args "a"); (Arr1 [0; 1], sample_args "b")] (fresh 2)
    = (Ok [0; 1], two_docs) /\
  vector_count two_docs = 2 /\
  dict_len (id_to_doc_id two_docs) = 2 /\
  next_faiss_id two_docs = vector_count two_docs.
Proof.
  assert (Hone : Forall (fun c : ndarray Z * doc_args => one_vector (fst c))
                        [(Arr1 [1; 0], sample_args "a"); (Arr1 [0; 1], sample_args "b")]).
  { constructor; [reflexivity|]. constructor; [reflexivity|]. constructor. }
  assert (Hrun : run_adds [(Arr1 [1; 0], sample_args "a"); (Arr1 [0; 1], sample_args "b")]
                          (fresh 2) = (Ok [0; 1], two_docs)).
  { vm_compute. reflexivity. }
  destruct (@adds_keep_structures_in_step Z 2%nat
              [(Arr1 [1; 0], sample_args "a"); (Arr1 [0; 1], sample_args "b")]
              [0; 1] two_docs Hone Hrun)
    as (_ & Hcount & Hlen & _ & _ & Hnext & _).
  split; [exact Hrun|]. split; [exact Hcount|]. split; [exact Hlen | exact Hnext].
Defined.

(** Why [one_vector] is asked for: a 2-D array of two rows is one call
    and one mapping entry, and two vectors in the index. *)
Example add_vector_two_rows :
  vector_count (snd (add_vector (Arr2 2 [[1; 0]; [0; 1]]) (sample_args "a") (fresh 2))) = 2 /\
  dict_len (id_to_doc_id
              (snd (add_vector (Arr2 2 [[1; 0]; [0; 1]]) (sample_args "a") (fresh 2)))) = 1.
Proof. split; vm_compute; reflexivity. Qed.

(* ================================================================== *)
(** * Saving and loading                                               *)
(* ================================================================== *)

(** Whatever [json.load] builds from a non-empty object starts with a
    string key. *)
Lemma json_load_head (k : string) (v : Z) (o : json_object) :
  exists v' rest, json_load ((k, v) :: o) = (KStr k, v') :: rest.
Proof.
  unfold json_load. simpl.
  generalize (@nil (pykey * Z)) as rest. revert v.
  induction o as [|[k2 v2] o IH]; intros v rest; simpl.
  - exists v, rest. reflexivity.
  - destruct (String.eqb k k2); apply IH.
Qed.

(** So the next slot cannot be computed from it: [max(keys) + 1] raises. *)
Lemma max_plus_one_after_load (kv : string * Z) (o : json_object) :
  exists v' rest,
    json_load (kv :: o) = (KStr (fst kv), v') :: rest /\
    max_plus_one (dict_keys (json_load (kv :: o))) = Raise TypeError.
Proof.
  destruct kv as [k v]. destruct (json_load_head k v o) as (v' & rest & H).
  exists v', rest. split; [exact H|]. rewrite H. reflexivity.
Qed.

Section LoadProps.

Variable F : Type.
Implicit Types (w : world F) (ix : faiss_index F).

(** The state [__init__] leaves when the mapping file holds at least one
    member: the index read from the file is replaced by a new one. *)
Lemma init_with_nonempty_mapping (dim : nat) w ix (kv : string * Z) (o : json_object) :
  index_file w = Some (BlobIndex ix) ->
  mapping_file w = Some (MapJson (kv :: o)) ->
  __init__ dim w =
  (Ok tt, mk_world dim (Some (IndexHNSWFlat F dim)) (json_load (kv :: o)) 0
                   (documents w) (index_file w) (mapping_file w) (clock w)
                   (stdout w ++ [ErrorLoading TypeError; CreatingNew; CreatedNew dim])).
Proof.
  intros Hi Hm.
  destruct (max_plus_one_after_load kv o) as (v' & rest & Hload & Hmax).
  destruct w as [dim0 oix d n docs fi fm clk out]. simpl in Hi, Hm. subst fi fm.
  unfold __init__, _load_or_create_index, load_existing, _create_new_index,
    try_except, print, bind, gets, modify, ret, lift_outcome.
  cbn -[json_load max_plus_one].
  rewrite Hmax. rewrite Hload. cbn.
  rewrite <- !app_assoc. reflexivity.
Qed.

(** [save] with an index in place writes both files. *)
Lemma save_writes_both w ix :
  index w = Some ix ->
  save w =
  (Ok tt, mk_world (embedding_dim w) (index w) (id_to_doc_id w) (next_faiss_id w)
                   (documents w) (Some (BlobIndex ix))
                   (Some (MapJson (json_dump (id_to_doc_id w))))
                   (clock w) (stdout w ++ [SavedIndex (ntotal ix)])).
Proof.
  intros H. destruct w as [dim0 oix d n docs fi fm clk out]. simpl in H. subst oix.
  reflexivity.
Qed.


(** C2: the round trip the claim describes does not hold in the code.
    From any state holding at least one vector, [save] followed by a new
    [FaissIndex] over the same files gives an index of zero vectors:
    the mapping comes back with string keys, [max(keys) + 1] raises
    [TypeError], and the handler replaces the index just read by an empty
    one. The statistics differ and every later search is empty. *)
Theorem reload_after_save_loses_vectors
        (D : Type) (knn : list (list F) -> list F -> nat -> list (D * Z))
        (n : nat) w (q : ndarray F) (k : Z) :
  consistent (S n) w ->
  vector_count w = Z.of_nat (S n) /\
  vector_count (snd (__init__ (embedding_dim w) (snd (save w)))) = 0 /\
  fst (get_stats (snd (__init__ (embedding_dim w) (snd (save w))))) <> fst (get_stats w) /\
  fst (search knn q k (snd (__init__ (embedding_dim w) (snd (save w))))) = Ok [] /\
  In (ErrorLoading TypeError) (stdout (snd (__init__ (embedding_dim w) (snd (save w))))).
Proof.
  intros Hc. destruct (cons_index Hc) as (ix & Hix & Hd & Hlen).
  assert (Hcount : vector_count w = Z.of_nat (S n)).
  { unfold vector_count, ntotal. rewrite Hix, Hlen. reflexivity. }
  assert (Hdump : exists kv o, json_dump (id_to_doc_id w) = kv :: o).
  { pose proof (cons_keys Hc) as Hk. unfold dict_keys in Hk.
    destruct (id_to_doc_id w) as [|kv d]; [discriminate Hk|].
    simpl. eauto. }
  destruct Hdump as (kv & o & Hdump).
  rewrite (save_writes_both _ Hix). cbn [snd].
  erewrite init_with_nonempty_mapping;
    [| reflexivity | cbn [mapping_file]; rewrite Hdump; reflexivity].
  cbn [snd]. split; [exact Hcount|]. split; [reflexivity|]. split; [|split].
  - unfold get_stats, bind, get, ret. cbn [fst index embedding_dim].
    rewrite Hix. intros H. inversion H as [[Ht Hk]].
    unfold ntotal in Ht. simpl in Ht. rewrite Hlen in Ht. lia.
  - rewrite search_empty_index; reflexivity.
  - cbn [stdout]. apply in_or_app. right. left. reflexivity.
Qed.

(** C5 (amended). Loading compares nothing. With the mapping file absent
    or holding the empty object, the index read from the index file is
    kept whatever its vector count, under an empty mapping and next slot
    0, and the one line printed is the "Loaded existing" line. *)
Theorem load_without_mapping_keeps_index (dim : nat) w ix :
  index_file w = Some (BlobIndex ix) ->
  mapping_file w = None \/ mapping_file w = Some (MapJson []) ->
  __init__ dim w =
  (Ok tt, mk_world dim (Some ix) [] 0
                   (documents w) (index_file w) (mapping_file w) (clock w)
                   (stdout w ++ [LoadedExisting (ntotal ix)])).
Proof.
  intros Hi Hm.
  destruct w as [dim0 oix d n docs fi fm clk out]. simpl in Hi, Hm. subst fi.
  destruct Hm as [-> | ->]; reflexivity.
Qed.

End LoadProps.

Lemma two_docs_consistent : consistent 2 two_docs.
Proof.
  constructor.
  - eexists. split; [reflexivity|]. split; reflexivity.
  - reflexivity.
  - reflexivity.
  - reflexivity.
  - split; repeat constructor; simpl; lia.
  - reflexivity.
Qed.

Lemma reload_after_save_loses_vectors_witness :
  vector_count two_docs = 2 /\
  vector_count (snd (__init__ 2 (snd (save two_docs)))) = 0 /\
  fst (get_stats (snd (__init__ 2 (snd (save two_docs))))) <> fst (get_stats two_docs).
Proof.
  destruct (@reload_after_save_loses_vectors Z Z flat_knn 1 two_docs (Arr1 [1; 0]) 2
              two_docs_consistent) as (H1 & H2 & H3 & _).
  split; [exact H1|]. split; [exact H2 | exact H3].
Defined.

(** C5, as stated, fails on the code. An empty mapping beside an index
    of one vector (next slot 0, vector count 1) is accepted without a
    word; and a mapping whose largest key is 5 beside the same index is
    kept in memory, so the object is not the one a first start builds. *)
Lemma load_inconsistent_mapping_counterexample :
  vector_count (snd (__init__ 2 index_with_empty_mapping)) = 1 /\
  next_faiss_id (snd (__init__ 2 index_with_empty_mapping)) - 1
    <> vector_count (snd (__init__ 2 index_with_empty_mapping)) - 1 /\
  stdout (snd (__init__ 2 index_with_empty_mapping)) = [LoadedExisting 1] /\
  id_to_doc_id (snd (__init__ 2 index_with_stale_mapping)) = [(KStr "5", 7)] /\
  id_to_doc_id (snd (__init__ 2 index_with_stale_mapping)) <> id_to_doc_id (@fresh Z 2).
Proof.
  split; [vm_compute; reflexivity|].
  split; [vm_compute; intros H; discriminate H|].
  split; [vm_compute; reflexivity|].
  split; [vm_compute; reflexivity|].
  vm_compute. intros H. discriminate H.
Qed.

Lemma load_without_mapping_keeps_index_witness :
  vector_count (snd (__init__ 2 index_with_empty_mapping)) = 1 /\
  stdout (snd (__init__ 2 index_with_empty_mapping)) = [LoadedExisting 1].
Proof.
  assert (Hi : index_file index_with_empty_mapping
               = Some (BlobIndex (mk_index "IndexHNSWFlat" 2 [[1; 0]]))) by reflexivity.
  assert (Hm : mapping_file index_with_empty_mapping = None \/
               mapping_file index_with_empty_mapping = Some (MapJson []))
    by (right; reflexivity).
  rewrite (@load_without_mapping_keeps_index Z 2%nat index_with_empty_mapping
             (mk_index "IndexHNSWFlat" 2 [[1; 0]]) Hi Hm).
  split; reflexivity.
Defined.

(* ================================================================== *)
(** * The lock                                                         *)
(* ================================================================== *)

Section LockProps.

Variables F D : Type.
Variable knn : list (list F) -> list F -> nat -> list (D * Z).
Implicit Types (w : world F) (v q : ndarray F) (a : doc_args).

(** A call of [add_vector] cannot start while the lock is held, and a
    call of [save] neither. *)
Lemma add_waits_for_lock v a w : add_step v a AddBegin true w = None.
Proof. reflexivity. Qed.

Lemma save_waits_for_lock w : save_step SaveBegin true w = None.
Proof. reflexivity. Qed.

(** A call of [search] steps whatever the lock says, until it is done,
    and leaves the lock and the state as they are. *)
Lemma search_step_ignores_lock q k (pc : search_pc D) (lock : bool) w :
  match search_step knn q k pc lock w with
  | Some (_, lock', w') => lock' = lock /\ w' = w
  | None => exists r, pc = SearchDone r
  end.
Proof.
  destruct pc as [|hits rs|r]; simpl.
  - pose proof (search_hits_readonly knn q k w) as Hw.
    destruct (search_hits knn q k w) as [[[hits|]|e] w']; simpl in Hw; subst w';
      split; reflexivity.
  - destruct hits as [|h hits]; [split; reflexivity|].
    rewrite join_hit_spec. split; reflexivity.
  - exists r. reflexivity.
Qed.

(** Run with nobody else, a call of [add_vector] is the method. *)
Lemma add_alone_is_add_vector v a w :
  run_alone knn 7 (TAdd v a AddBegin) false w =
  (TAdd v a (AddDone (fst (add_vector v a w))), false, snd (add_vector v a w)).
Proof.
  rewrite add_vector_cases.
  destruct w as [dim oix d n docs fi fm clk out].
  destruct oix as [ix|]; [|reflexivity].
  cbn [index].
  unfold run_alone, thread_step, add_step, locked_step, check_initialized,
    metadata_add_document, insert_vector, record_mapping, _save_mapping,
    bind, gets, modify, raise, ret, lift_outcome.
  cbn -[index_add as_batch Nat.eqb].
  rewrite index_add_as_batch.
  destruct (Nat.eqb (columns v) (ix_d ix)); reflexivity.
Qed.

(** Run with nobody else, a call of [search] is the method. *)
Lemma search_joining_alone q k (hits : list (D * Z)) :
  forall (rs : list (search_result D)) (lock : bool) w (fuel : nat),
    (List.length hits + 1 <= fuel)%nat ->
    run_alone knn fuel (TSearch q k (SearchJoining hits rs)) lock w =
    (TSearch q k (SearchDone (Ok (rs ++ kept_hits w hits))), lock, w).
Proof.
  induction hits as [|h hits IH]; intros rs lock w fuel Hf.
  - destruct fuel as [|fuel]; [simpl in Hf; lia|].
    simpl. rewrite app_nil_r. destruct fuel; reflexivity.
  - destruct fuel as [|fuel]; [simpl in Hf; lia|].
    cbn [run_alone thread_step search_step]. rewrite join_hit_spec.
    rewrite IH by (simpl in Hf; lia).
    unfold kept_hits. simpl. rewrite app_assoc. reflexivity.
Qed.

Lemma search_alone_is_search q k (lock : bool) w (fuel : nat) :
  (forall hits, fst (search_hits knn q k w) = Ok (Some hits) ->
                (List.length hits + 2 <= fuel)%nat) ->
  (1 <= fuel)%nat ->
  run_alone knn fuel (TSearch q k SearchBegin) lock w =
  (TSearch q k (SearchDone (fst (search knn q k w))), lock, w).
Proof.
  intros Hfuel H1. rewrite search_after_hits.
  destruct fuel as [|fuel]; [lia|].
  cbn [run_alone thread_step search_step].
  pose proof (search_hits_readonly knn q k w) as Hw.
  destruct (search_hits knn q k w) as [[[hits|]|e] w'] eqn:Hh; simpl in Hw; subst w';
    cbn [fst].
  - rewrite search_joining_alone; [reflexivity|].
    specialize (Hfuel hits eq_refl). lia.
  - destruct fuel; reflexivity.
  - destruct fuel; reflexivity.
Qed.

End LockProps.

(** C4: [search] takes no lock, so it is not serialized against
    [add_vector]. Thread 0 runs [add_vector] up to and including
    [index.add] and holds the lock; thread 1 then runs a whole [search]:
    the engine reports slot 0, the mapping has no entry for it yet, and
    the search returns nothing. Run after the add has finished, the same
    search returns the document. *)
Theorem search_overlaps_add :
  option_map (@lock_held Z Z) (after [0; 0; 0; 1]%nat) = Some true /\
  option_map (fun c => vector_count (shared c)) (after [0; 0; 0; 1]%nat) = Some 1 /\
  option_map (fun c => dict_get (id_to_doc_id (shared c)) (KInt 0))
             (after [0; 0; 0; 1]%nat) = Some None /\
  option_map (@threads Z Z) (after [0; 0; 0; 1]%nat)
    = Some [TAdd (Arr1 [1; 0]) (sample_args "a") (AddVectorInserted 1);
            TSearch (Arr1 [1; 0]) 1 (SearchJoining [(0, 0)] [])] /\
  option_map (@lock_held Z Z) (after [0; 0; 0; 1; 1; 1]%nat) = Some true /\
  option_map (@threads Z Z) (after [0; 0; 0; 1; 1; 1]%nat)
    = Some [TAdd (Arr1 [1; 0]) (sample_args "a") (AddVectorInserted 1);
            TSearch (Arr1 [1; 0]) 1 (SearchDone (Ok []))] /\
  option_map (fun c => map (fun t => match t with
                                     | TSearch _ _ (SearchDone (Ok rs)) =>
                                         map (@faiss_id Z) rs
                                     | _ => []
                                     end) (threads c))
             (after [0; 0; 0; 0; 0; 0; 1; 1; 1]%nat) = Some [[]; [0]].
Proof.
  repeat split; vm_compute; reflexivity.
Qed.

Unset Implicit Arguments.

(* ================================================================== *)
(** * More on [MetadataDB]: lookups and ids                            *)
(* ================================================================== *)

Lemma find_app_none {A} (f : A -> bool) (l1 l2 : list A) :
  find f l1 = None -> find f (l1 ++ l2) = find f l2.
Proof.
  induction l1 as [|x l1 IH]; simpl; [reflexivity|].
  destruct (f x); [discriminate | exact IH].
Qed.

Lemma find_app_some {A} (f : A -> bool) (l1 l2 : list A) (x : A) :
  find f l1 = Some x -> find f (l1 ++ l2) = Some x.
Proof.
  induction l1 as [|y l1 IH]; simpl; [discriminate|].
  destruct (f y); [trivial | exact IH].
Qed.

Lemma find_id_above (n : Z) (l : table) :
  Forall (fun r => row_id r < n) l ->
  find (fun r => Z.eqb (row_id r) n) l = None.
Proof.
  induction 1 as [|r l Hr _ IH]; simpl; [reflexivity|].
  destruct (Z.eqb_spec (row_id r) n); [lia | exact IH].
Qed.

(** X1. What [add_document] stores, [get_document] returns under the id
    handed out: the five arguments, the metadata as given, and the
    timestamp of the insert; and that id was not in use before. *)
Theorem get_document_after_add (now : Z) (t : table) (a : doc_args) :
  get_document t (fst (add_document now t a)) = None /\
  get_document (snd (add_document now t a)) (fst (add_document now t a)) =
    Some (mk_document (next_rowid t) (arg_file_path a) (arg_file_type a)
                      (arg_content_type a) (arg_metadata a) (arg_snippet a) now).
Proof.
  pose proof (find_id_above _ _ (next_rowid_above t)) as Hnone.
  unfold get_document, add_document. cbn [fst snd]. split.
  - rewrite Hnone. reflexivity.
  - rewrite (find_app_none _ _ _ Hnone). simpl. rewrite Z.eqb_refl. reflexivity.
Qed.

(** With ids that grow along the table, the row found under an id is the
    row that carries it. *)
Lemma find_own_row (t : table) (r : document_row) :
  StronglySorted (fun a b => row_id a < row_id b) t ->
  In r t ->
  find (fun x => Z.eqb (row_id x) (row_id r)) t = Some r.
Proof.
  induction 1 as [|x l Hs IH Hx]; intros Hin; [contradiction|].
  simpl. destruct Hin as [->|Hin].
  - rewrite Z.eqb_refl. reflexivity.
  - rewrite Forall_forall in Hx. specialize (Hx r Hin).
    destruct (Z.eqb_spec (row_id x) (row_id r)); [lia|].
    apply IH. exact Hin.
Qed.

(** X2. A stored document is found under its id, and a later
    [add_document] does not change what is found there: rows are never
    rewritten and ids never handed out twice. *)
Theorem get_document_stable (now : Z) (t : table) (a : doc_args) (r : document_row) :
  table_ok t ->
  In r t ->
  get_document t (row_id r) = Some (document_of_row r) /\
  get_document (snd (add_document now t a)) (row_id r) = Some (document_of_row r) /\
  fst (add_document now t a) <> row_id r.
Proof.
  intros [Hs _] Hin.
  pose proof (find_own_row _ _ Hs Hin) as Hf.
  unfold get_document, add_document. cbn [fst snd].
  split; [rewrite Hf; reflexivity|]. split.
  - rewrite (find_app_some _ _ _ _ Hf). reflexivity.
  - pose proof (next_rowid_above t) as Ha. rewrite Forall_forall in Ha.
    specialize (Ha r Hin). lia.
Qed.

Lemma get_document_stable_witness :
  get_document sample_table 2 =
    Some (mk_document 2 "b.pdf" "pdf" "text" JNull "ABC" 1) /\
  get_document (snd (add_document 9 sample_table (mk_args "d.pdf" "pdf" "text" JNull "new"))) 2 =
    Some (mk_document 2 "b.pdf" "pdf" "text" JNull "ABC" 1).
Proof.
  assert (Hin : In (mk_row 2 "b.pdf" "pdf" "text" (Some JNull) "ABC" 1) sample_table)
    by (right; left; reflexivity).
  destruct (get_document_stable 9 sample_table (mk_args "d.pdf" "pdf" "text" JNull "new")
              (mk_row 2 "b.pdf" "pdf" "text" (Some JNull) "ABC" 1)
              sample_table_ok Hin) as (H1 & H2 & _).
  split; [exact H1 | exact H2].
Defined.

Lemma list_max_in (xs : list Z) (x : Z) :
  list_max x xs = x \/ In (list_max x xs) xs.
Proof.
  unfold list_max. revert x.
  induction xs as [|a xs IH]; intros x; simpl; [left; reflexivity|].
  destruct (IH (Z.max x a)) as [H|H].
  - rewrite H. destruct (Z.max_spec x a) as [[_ ->]|[_ ->]]; [right; left|left]; reflexivity.
  - right. right. exact H.
Qed.

Lemma slots_in_range (n : nat) (i : Z) : In i (slots n) <-> 0 <= i < Z.of_nat n.
Proof.
  split; [apply slots_bound | apply in_slots].
Qed.

(** On ids 1..n the next rowid is n + 1. *)
Lemma next_rowid_dense (t : table) :
  ids_dense t -> next_rowid t = Z.of_nat (List.length t) + 1.
Proof.
  unfold ids_dense. intros Hd.
  destruct t as [|r t]; [reflexivity|].
  assert (Hall : forall i, In i (map row_id (r :: t)) ->
                           1 <= i <= Z.of_nat (List.length (r :: t))).
  { intros i Hi. rewrite Hd in Hi. apply in_map_iff in Hi.
    destruct Hi as (j & <- & Hj). apply slots_in_range in Hj. lia. }
  assert (Hlast : In (Z.of_nat (List.length (r :: t))) (map row_id (r :: t))).
  { rewrite Hd. apply in_map_iff. exists (Z.of_nat (List.length t)).
    split; [simpl List.length; lia|]. apply slots_in_range. simpl List.length. lia. }
  cbn [next_rowid].
  destruct (list_max_bounds (map row_id t) (row_id r)) as [H1 H2].
  rewrite Forall_forall in H2.
  assert (Hge : Z.of_nat (List.length (r :: t)) <= list_max (row_id r) (map row_id t)).
  { destruct Hlast as [<-|Hl]; [exact H1 | apply H2; exact Hl]. }
  assert (Hle : list_max (row_id r) (map row_id t) <= Z.of_nat (List.length (r :: t))).
  { destruct (list_max_in (map row_id t) (row_id r)) as [->|Hm].
    - apply Hall. left. reflexivity.
    - apply Hall. right. exact Hm. }
  lia.
Qed.

(** X3. In a table whose ids are 1..n, [add_document] hands out n + 1
    and the ids are then 1..n+1: documents added to an empty table are
    numbered 1, 2, 3, ... in the order of the calls. *)
Theorem add_document_numbers_in_order (now : Z) (t : table) (a : doc_args) :
  ids_dense t ->
  fst (add_document now t a) = Z.of_nat (List.length t) + 1 /\
  ids_dense (snd (add_document now t a)).
Proof.
  intros Hd. pose proof (next_rowid_dense _ Hd) as Hn.
  unfold add_document. cbn [fst snd]. split; [exact Hn|].
  unfold ids_dense in *. rewrite map_app, length_app. simpl.
  replace (List.length t + 1)%nat with (S (List.length t)) by lia.
  rewrite slots_succ, map_app, Hd, Hn. reflexivity.
Qed.

Lemma sample_table_dense : ids_dense sample_table.
Proof. reflexivity. Qed.

Lemma add_document_numbers_in_order_witness :
  ids_dense sample_table /\
  fst (add_document 9 sample_table (mk_args "d.pdf" "pdf" "text" JNull "new")) = 4.
Proof.
  split; [exact sample_table_dense|].
  exact (proj1 (add_document_numbers_in_order 9 sample_table
                  (mk_args "d.pdf" "pdf" "text" JNull "new") sample_table_dense)).
Defined.

Lemma snippet_like_empty_query (snippet : string) : snippet_like "" snippet = true.
Proof.
  unfold snippet_like. simpl app. rewrite like_percent, like_only_percent. reflexivity.
Qed.

Lemma filter_all {A} (f : A -> bool) (l : list A) :
  (forall x, f x = true) -> filter f l = l.
Proof.
  intros H. induction l as [|x l IH]; simpl; [reflexivity|].
  rewrite H, IH. reflexivity.
Qed.

(** X4. The empty query matches every snippet: on a table filled by
    [add_document], with a limit from 0 to 2^63 - 1,
    [search_documents("", limit)] returns the [limit] most recent
    documents, newest first, and all of them when there are no more
    than [limit]. *)
Theorem search_documents_empty_query (t : table) (limit : Z) :
  table_ok t ->
  0 <= limit < 2 ^ 63 ->
  exists docs : list document,
    search_documents t "" limit = Ok docs /\
    docs = map document_of_row (firstn (Z.to_nat limit) (rev t)) /\
    Z.of_nat (List.length docs) = Z.min limit (Z.of_nat (List.length t)).
Proof.
  intros [Hs Hpos] Hl.
  exists (map document_of_row (firstn (Z.to_nat limit) (rev t))).
  split; [|split; [reflexivity|]].
  - unfold search_documents. rewrite (@sqlite_int_inside limit Hl).
    rewrite (filter_all _ t (fun r => snippet_like_empty_query (row_snippet r))).
    rewrite (order_by_id_desc_rev Hs). unfold sql_limit.
    destruct (Z.ltb_spec limit 0); [lia | reflexivity].
  - rewrite length_map, length_firstn, length_rev. lia.
Qed.

Lemma search_documents_empty_query_witness :
  exists docs : list document,
    search_documents sample_table "" 2 = Ok docs /\ map (@doc_id) docs = [3; 2].
Proof.
  assert (Hl : 0 <= 2 < 2 ^ 63) by (split; [lia | vm_compute; reflexivity]).
  destruct (search_documents_empty_query sample_table 2 sample_table_ok Hl)
    as (docs & Hrun & Hdocs & _).
  exists docs. split; [exact Hrun|]. rewrite Hdocs. vm_compute. reflexivity.
Defined.

(* ================================================================== *)
(** * More on [FaissIndex]: construction, persistence, joins           *)
(* ================================================================== *)

Lemma dict_set_str_keys (d : dict) (k : string) (v : Z) :
  str_keys d -> str_keys (dict_set d (KStr k) v).
Proof.
  unfold str_keys. induction 1 as [|[k' v'] d Hk Hd IH]; simpl.
  - constructor; [eexists; reflexivity | constructor].
  - destruct (pykey_eqb k' (KStr k)); constructor; assumption.
Qed.

Lemma json_load_str_keys (o : json_object) : str_keys (json_load o).
Proof.
  unfold json_load.
  assert (H : str_keys []) by constructor.
  revert H. generalize (@nil (pykey * Z)).
  induction o as [|[k v] o IH]; intros d Hd; simpl; [exact Hd|].
  apply IH. apply dict_set_str_keys. exact Hd.
Qed.

(** A dictionary with string keys knows no integer slot. *)
Lemma dict_get_int_str_keys (d : dict) (i : Z) :
  str_keys d -> dict_get d (KInt i) = None.
Proof.
  unfold str_keys. induction 1 as [|[k v] d [s Hk] _ IH]; simpl; [reflexivity|].
  simpl in Hk. subst k. simpl. exact IH.
Qed.

Section MoreFaiss.

Variables F D : Type.
Variable knn : list (list F) -> list F -> nat -> list (D * Z).

(** Every way through [__init__]: it returns, with an index in place
    that is either the one read from the index file or a new empty one,
    a mapping whose keys are strings, and next slot 0. *)
Lemma init_result (dim : nat) (w : world F) :
  exists (ix : faiss_index F) (d : dict) (log : list log_line),
    __init__ dim w =
      (Ok tt, mk_world dim (Some ix) d 0 (documents w) (index_file w)
                       (mapping_file w) (clock w) (stdout w ++ log)) /\
    str_keys d /\
    (ix = IndexHNSWFlat F dim \/ index_file w = Some (BlobIndex ix)).
Proof.
  destruct w as [dim0 oix d0 n0 docs fi fm clk out].
  destruct fi as [[ix| |]|].
  - (* an index file that holds an index *)
    destruct fm as [[[|kv o]|]|].
    + exists ix, [], [LoadedExisting (ntotal ix)].
      split; [reflexivity|]. split; [constructor | right; reflexivity].
    + exists (IndexHNSWFlat F dim), (json_load (kv :: o)),
        [ErrorLoading TypeError; CreatingNew; CreatedNew dim].
      split; [|split; [apply json_load_str_keys | left; reflexivity]].
      apply (@init_with_nonempty_mapping F dim _ ix kv o); reflexivity.
    + exists (IndexHNSWFlat F dim), [],
        [ErrorLoading JSONDecodeError; CreatingNew; CreatedNew dim].
      split; [|split; [constructor | left; reflexivity]].
      unfold __init__, _load_or_create_index, load_existing, _create_new_index,
        try_except, print, bind, gets, modify, ret, lift_outcome.
      cbn. rewrite <- !app_assoc. reflexivity.
    + exists ix, [], [LoadedExisting (ntotal ix)].
      split; [reflexivity|]. split; [constructor | right; reflexivity].
  - (* an index file read back as [None] *)
    destruct fm as [[[|kv o]|]|].
    + exists (IndexHNSWFlat F dim), [],
        [ErrorLoading AttributeError; CreatingNew; CreatedNew dim].
      split; [|split; [constructor | left; reflexivity]].
      unfold __init__, _load_or_create_index, load_existing, _create_new_index,
        try_except, print, bind, gets, modify, ret, raise, lift_outcome.
      cbn. rewrite <- !app_assoc. reflexivity.
    + exists (IndexHNSWFlat F dim), (json_load (kv :: o)),
        [ErrorLoading TypeError; CreatingNew; CreatedNew dim].
      split; [|split; [apply json_load_str_keys | left; reflexivity]].
      destruct (max_plus_one_after_load kv o) as (v' & rest & Hload & Hmax).
      unfold __init__, _load_or_create_index, load_existing, _create_new_index,
        try_except, print, bind, gets, modify, ret, raise, lift_outcome.
      cbn -[json_load max_plus_one].
      rewrite Hmax. rewrite Hload. cbn.
      rewrite <- !app_assoc. reflexivity.
    + exists (IndexHNSWFlat F dim), [],
        [ErrorLoading JSONDecodeError; CreatingNew; CreatedNew dim].
      split; [|split; [constructor | left; reflexivity]].
      unfold __init__, _load_or_create_index, load_existing, _create_new_index,
        try_except, print, bind, gets, modify, ret, raise, lift_outcome.
      cbn. rewrite <- !app_assoc. reflexivity.
    + exists (IndexHNSWFlat F dim), [],
        [ErrorLoading AttributeError; CreatingNew; CreatedNew dim].
      split; [|split; [constructor | left; reflexivity]].
      unfold __init__, _load_or_create_index, load_existing, _create_new_index,
        try_except, print, bind, gets, modify, ret, raise, lift_outcome.
      cbn. rewrite <- !app_assoc. reflexivity.
  - (* an index file that cannot be read *)
    exists (IndexHNSWFlat F dim), [],
      [ErrorLoading (RuntimeError "read_index"); CreatingNew; CreatedNew dim].
    split; [|split; [constructor | left; reflexivity]].
    unfold __init__, _load_or_create_index, load_existing, _create_new_index,
      try_except, print, bind, gets, modify, ret, lift_outcome.
    cbn. rewrite <- !app_assoc. reflexivity.
  - (* no index file *)
    exists (IndexHNSWFlat F dim), [], [CreatedNew dim].
    split; [reflexivity|]. split; [constructor | left; reflexivity].
Qed.

(** X5. Once the directories and the metadata database are there, the
    rest of [FaissIndex()] never raises, whatever the index file holds
    and for a mapping file that is absent, not JSON, or a JSON object of
    integers. It leaves an index in place: a new empty [IndexHNSWFlat]
    of the configured dimension, or the index read from the index file,
    whose dimension is the file's own and need not be the configured
    one. The next slot is 0, neither file nor table is written, and a
    following [add_vector] cannot fail with "Index not initialized". *)
Theorem init_always_ready (dim : nat) (w : world F) (v : ndarray F) (a : doc_args) :
  fst (__init__ dim w) = Ok tt /\
  (exists ix : faiss_index F,
     index (snd (__init__ dim w)) = Some ix /\
     (ix = IndexHNSWFlat F dim \/ index_file w = Some (BlobIndex ix))) /\
  embedding_dim (snd (__init__ dim w)) = dim /\
  next_faiss_id (snd (__init__ dim w)) = 0 /\
  documents (snd (__init__ dim w)) = documents w /\
  index_file (snd (__init__ dim w)) = index_file w /\
  mapping_file (snd (__init__ dim w)) = mapping_file w /\
  fst (add_vector v a (snd (__init__ dim w)))
    <> Raise (RuntimeError "Index not initialized").
Proof.
  destruct (init_result dim w) as (ix & d & log & E & _ & Hix).
  rewrite E. cbn [fst snd index embedding_dim next_faiss_id documents
                  index_file mapping_file].
  split; [reflexivity|]. split; [exists ix; split; [reflexivity | exact Hix]|].
  repeat split.
  rewrite add_vector_cases. cbn [index].
  destruct (Nat.eqb (columns v) (ix_d ix)); cbn [fst]; discriminate.
Qed.

(** X6. A newly constructed [FaissIndex] finds nothing: whatever the
    index file holds, and for a mapping file that is absent, not JSON,
    or a JSON object of integers, no integer slot resolves in the
    mapping of the new object (it is empty or has string keys), so a
    search that returns, returns the empty list. *)
Theorem restart_finds_nothing (dim : nat) (w : world F) (q : ndarray F) (k : Z)
        (rs : list (search_result D)) :
  fst (search knn q k (snd (__init__ dim w))) = Ok rs ->
  rs = [] /\
  forall i, dict_get (id_to_doc_id (snd (__init__ dim w))) (KInt i) = None.
Proof.
  destruct (init_result dim w) as (ix & d & log & E & Hd & _).
  rewrite E. cbn [snd]. intros H.
  assert (Hget : forall i, dict_get d (KInt i) = None)
    by (intros i; apply dict_get_int_str_keys; exact Hd).
  split; [|exact Hget].
  rewrite search_after_hits in H.
  destruct (fst (search_hits knn q k _)) as [[hits|]|e]; cbn [fst] in H.
  - inversion H as [Hrs]. clear H Hrs.
    induction hits as [|h hits IH]; [reflexivity|].
    unfold kept_hits. simpl. fold (kept_hits
      (mk_world dim (Some ix) d 0 (documents w) (index_file w) (mapping_file w)
                (clock w) (stdout w ++ log)) hits).
    rewrite IH. unfold hit_list, hit_record. cbn [id_to_doc_id].
    rewrite Hget. destruct (Z.eqb (snd h) (-1)); reflexivity.
  - inversion H. reflexivity.
  - discriminate.
Qed.


(** [save], in full. *)
Lemma save_cases (w : world F) :
  save w =
  match index w with
  | Some ix =>
      (Ok tt, mk_world (embedding_dim w) (index w) (id_to_doc_id w) (next_faiss_id w)
                       (documents w) (Some (BlobIndex ix))
                       (Some (MapJson (json_dump (id_to_doc_id w))))
                       (clock w) (stdout w ++ [SavedIndex (ntotal ix)]))
  | None =>
      (Ok tt, mk_world (embedding_dim w) (index w) (id_to_doc_id w) (next_faiss_id w)
                       (documents w) (index_file w) (mapping_file w)
                       (clock w) (stdout w ++ [NoIndexToSave]))
  end.
Proof.
  destruct w as [dim0 oix d n docs fi fm clk out]. destruct oix as [ix|]; reflexivity.
Qed.

(** X7. [save] never raises, changes nothing in the object and nothing
    in the table, and a second [save] right after leaves both files as
    the first one wrote them; without an index it writes no file. *)
Theorem save_is_idempotent (w : world F) :
  fst (save w) = Ok tt /\
  index (snd (save w)) = index w /\
  id_to_doc_id (snd (save w)) = id_to_doc_id w /\
  next_faiss_id (snd (save w)) = next_faiss_id w /\
  documents (snd (save w)) = documents w /\
  index_file (snd (save (snd (save w)))) = index_file (snd (save w)) /\
  mapping_file (snd (save (snd (save w)))) = mapping_file (snd (save w)) /\
  (index w = None ->
   index_file (snd (save w)) = index_file w /\
   mapping_file (snd (save w)) = mapping_file w).
Proof.
  rewrite (save_cases (snd (save w))). rewrite (save_cases w).
  destruct w as [dim0 oix d n docs fi fm clk out].
  destruct oix as [ix|]; cbn; repeat split; try reflexivity; discriminate.
Qed.

(** X8. A successful [add_vector] leaves both files equal to what is in
    memory: the index file holds the index with the new vector, the
    mapping file the dump of the mapping with the new entry; a [save]
    right after it rewrites the same two files. *)
Theorem add_vector_persists (v : ndarray F) (a : doc_args) (w w' : world F) (slot : Z) :
  add_vector v a w = (Ok slot, w') ->
  index_file w' = option_map (@BlobIndex F) (index w') /\
  mapping_file w' = Some (MapJson (json_dump (id_to_doc_id w'))) /\
  index w' <> None /\
  index_file (snd (save w')) = index_file w' /\
  mapping_file (snd (save w')) = mapping_file w'.
Proof.
  rewrite add_vector_cases.
  destruct (index w) as [ix|]; [|discriminate].
  destruct (Nat.eqb (columns v) (ix_d ix)); [|discriminate].
  intros H. inversion H as [[Hs Hw]]. clear H Hs.
  rewrite save_cases. unfold world_after_add. cbn.
  repeat split. discriminate.
Qed.

End MoreFaiss.

Lemma restart_finds_nothing_witness :
  fst (search flat_knn (Arr1 [1; 0]) 2 (snd (__init__ 2 (snd (save two_docs))))) = Ok [] /\
  dict_get (id_to_doc_id (snd (__init__ 2 (snd (save two_docs))))) (KInt 0) = None.
Proof.
  assert (H : fst (search flat_knn (Arr1 [1; 0]) 2 (snd (__init__ 2 (snd (save two_docs)))))
              = Ok []) by (vm_compute; reflexivity).
  split; [exact H|].
  exact (proj2 (restart_finds_nothing Z Z flat_knn 2%nat (snd (save two_docs))
                  (Arr1 [1; 0]) 2 [] H) 0).
Defined.

Lemma add_vector_persists_witness :
  index_file two_docs = option_map (@BlobIndex Z) (index two_docs) /\
  mapping_file two_docs = Some (MapJson [("0"%string, 1); ("1"%string, 2)]).
Proof.
  assert (H : add_vector (Arr1 [0; 1]) (sample_args "b")
                (snd (add_vector (Arr1 [1; 0]) (sample_args "a") (fresh 2)))
              = (Ok 1, two_docs)) by (vm_compute; reflexivity).
  destruct (add_vector_persists Z (Arr1 [0; 1]) (sample_args "b") _ two_docs 1 H)
    as (H1 & H2 & _).
  split; [exact H1|]. rewrite H2. vm_compute. reflexivity.
Defined.

Lemma dict_get_app_some (d d2 : dict) (k : pykey) (v : Z) :
  dict_get d k = Some v -> dict_get (d ++ d2) k = Some v.
Proof.
  induction d as [|[k' v'] d IH]; simpl; [discriminate|].
  destruct (pykey_eqb k' k); [trivial | exact IH].
Qed.

Lemma dict_get_app_none (d d2 : dict) (k : pykey) :
  dict_get d k = None -> dict_get (d ++ d2) k = dict_get d2 k.
Proof.
  induction d as [|[k' v'] d IH]; simpl; [reflexivity|].
  destruct (pykey_eqb k' k); [discriminate | exact IH].
Qed.

Lemma dict_get_not_in_keys (d : dict) (k : pykey) :
  ~ In k (dict_keys d) -> dict_get d k = None.
Proof.
  induction d as [|[k' v'] d IH]; simpl; intros Hn; [reflexivity|].
  destruct (pykey_eqb k' k) eqn:E.
  - apply pykey_eqb_eq in E. exfalso. apply Hn. left. exact E.
  - apply IH. intros Hin. apply Hn. right. exact Hin.
Qed.

Section JoinAfterAdd.

Variables F D : Type.

(** X9. In a state where the three structures agree, a successful
    [add_vector] of one vector makes the returned slot join to the
    document made of the call's arguments, and every older slot joins to
    the document it joined to before. *)
Theorem added_vector_joins (n : nat) (w w' : world F) (v : ndarray F) (a : doc_args)
        (slot : Z) (dist : D) :
  consistent n w ->
  one_vector v ->
  add_vector v a w = (Ok slot, w') ->
  hit_record w' (dist, slot) =
    Some (mk_result dist dist slot
            (mk_document (next_rowid (documents w)) (arg_file_path a) (arg_file_type a)
                         (arg_content_type a) (arg_metadata a) (arg_snippet a) (clock w))) /\
  forall (i : Z) (d0 : D), 0 <= i < Z.of_nat n ->
    hit_record w' (d0, i) = hit_record w (d0, i) /\ hit_record w (d0, i) <> None.
Proof.
  intros Hc Hone Hadd.
  destruct (cons_index Hc) as (ix & Hix & Hd & Hlen).
  destruct (@add_vector_consistent F n w v a slot w' Hc Hone Hadd) as [Hslot _].
  rewrite add_vector_cases, Hix in Hadd.
  destruct (Nat.eqb (columns v) (ix_d ix)); [|discriminate].
  inversion Hadd as [[Hs Hw]]. clear Hadd. clear Hslot. subst slot w'.
  assert (Hnew : ~ In (KInt (next_faiss_id w)) (dict_keys (id_to_doc_id w))).
  { rewrite (cons_keys Hc), (cons_next Hc). intros Hin.
    apply in_map_iff in Hin. destruct Hin as (i & Hi & Hin).
    inversion Hi; subst i. apply slots_bound in Hin. lia. }
  destruct (cons_table Hc) as [Hsorted Hpos].
  pose proof (next_rowid_positive Hpos) as Hnext.
  unfold world_after_add.
  rewrite (@dict_set_new (id_to_doc_id w) (KInt (next_faiss_id w))
             (next_rowid (documents w)) Hnew).
  split.
  - unfold hit_record. cbn [fst snd id_to_doc_id documents].
    destruct (Z.eqb_spec (next_faiss_id w) (-1)) as [E|_];
      [rewrite (cons_next Hc) in E; lia|].
    rewrite (dict_get_app_none _ _ _ (dict_get_not_in_keys _ _ Hnew)).
    simpl. rewrite Z.eqb_refl.
    destruct (Z.eqb_spec (next_rowid (documents w)) 0); [lia|].
    pose proof (find_id_above _ _ (next_rowid_above (documents w))) as Hnone.
    unfold get_document, add_document. cbn [snd].
    rewrite (find_app_none _ _ _ Hnone). simpl. rewrite Z.eqb_refl. reflexivity.
  - intros i d0 Hi.
    pose proof (@consistent_hit_joins F D n w (d0, i) Hc Hi) as Hjoin.
    split; [|exact Hjoin].
    unfold hit_record in *. cbn [fst snd id_to_doc_id documents] in *.
    destruct (Z.eqb i (-1)); [reflexivity|].
    destruct (dict_get (id_to_doc_id w) (KInt i)) as [doc|] eqn:Hdoc;
      [|contradiction Hjoin; reflexivity].
    rewrite (dict_get_app_some _ _ _ _ Hdoc).
    destruct (Z.eqb doc 0); [reflexivity|].
    unfold get_document in *.
    destruct (find (fun r => Z.eqb (row_id r) doc) (documents w)) as [r|] eqn:Hf;
      [|contradiction Hjoin; reflexivity].
    unfold add_document. cbn [snd].
    rewrite (find_app_some _ _ _ _ Hf). reflexivity.
Qed.

End JoinAfterAdd.

Lemma added_vector_joins_witness :
  hit_record two_docs (0, 1) =
    Some (mk_result 0 0 1
            (mk_document 2 "b" "pdf" "text" (JDict [("page"%string, JInt 1)]) "b" 0)).
Proof.
  assert (Hc : consistent 1 (snd (add_vector (Arr1 [1; 0]) (sample_args "a") (@fresh Z 2)))).
  { constructor.
    - eexists. split; [reflexivity|]. split; reflexivity.
    - reflexivity.
    - reflexivity.
    - reflexivity.
    - split; repeat constructor; simpl; lia.
    - reflexivity. }
  assert (Hone : one_vector (Arr1 [0; 1])) by reflexivity.
  assert (H : add_vector (Arr1 [0; 1]) (sample_args "b")
                (snd (add_vector (Arr1 [1; 0]) (sample_args "a") (fresh 2)))
              = (Ok 1, two_docs)) by (vm_compute; reflexivity).
  exact (proj1 (added_vector_joins Z Z 1 _ two_docs (Arr1 [0; 1]) (sample_args "b") 1 0
                  Hc Hone H)).
Defined.

(* ================================================================== *)
(** * More on the lock: release, exclusion, serial order               *)
(* ================================================================== *)

Section MoreLock.

Variables F D : Type.
Variable knn : list (list F) -> list F -> nat -> list (D * Z).

Lemma save_alone_is_save (w : world F) :
  run_alone knn 3 (@TSave F D SaveBegin) false w =
  (TSave (SaveDone (fst (save w))), false, snd (save w)).
Proof.
  cbn [run_alone thread_step save_step].
  destruct (save w) as [r w']. reflexivity.
Qed.

(** X10. A call that runs with nobody else takes the lock if its method
    has one, does what the method does, and ends with the lock free,
    also when the method raises: [add_vector] in at most six steps,
    [save] in two, [search] in as many steps as it has hits, plus two. *)
Theorem call_alone_is_method (v q : ndarray F) (a : doc_args) (k : Z) (w : world F) :
  run_alone knn 7 (@TAdd F D v a AddBegin) false w =
    (TAdd v a (AddDone (fst (add_vector v a w))), false, snd (add_vector v a w)) /\
  run_alone knn 3 (@TSave F D SaveBegin) false w =
    (TSave (SaveDone (fst (save w))), false, snd (save w)) /\
  exists fuel : nat,
    run_alone knn fuel (TSearch q k SearchBegin) false w =
      (TSearch q k (SearchDone (fst (search knn q k w))), false, w).
Proof.
  split; [apply add_alone_is_add_vector|]. split; [apply save_alone_is_save|].
  destruct (fst (search_hits knn q k w)) as [[hits|]|e] eqn:Hh.
  - exists (List.length hits + 2)%nat.
    apply search_alone_is_search; [|lia].
    intros hits' H'. rewrite Hh in H'. inversion H'. subst. lia.
  - exists 1%nat. apply search_alone_is_search; [|lia].
    intros hits' H'. rewrite Hh in H'. discriminate.
  - exists 1%nat. apply search_alone_is_search; [|lia].
    intros hits' H'. rewrite Hh in H'. discriminate.
Qed.

(** ** At most one call inside a [with self.lock] block *)

Lemma critical_count_update (l : list (thread F D)) (i : nat) (t t' : thread F D) :
  nth_error l i = Some t ->
  (critical_count (list_update i t' l) + (if in_critical t then 1 else 0)
   = critical_count l + (if in_critical t' then 1 else 0))%nat.
Proof.
  unfold critical_count. revert i.
  induction l as [|x l IH]; intros [|i] H; simpl in H; try discriminate.
  - inversion H; subst x. simpl.
    destruct (in_critical t), (in_critical t'); simpl; lia.
  - simpl. specialize (IH i H).
    destruct (in_critical x); simpl; lia.
Qed.

Lemma critical_count_member (l : list (thread F D)) (i : nat) (t : thread F D) :
  nth_error l i = Some t -> in_critical t = true -> (1 <= critical_count l)%nat.
Proof.
  unfold critical_count. revert i.
  induction l as [|x l IH]; intros [|i] H Ht; simpl in H; try discriminate.
  - inversion H; subst x. simpl. rewrite Ht. simpl. lia.
  - simpl. specialize (IH i H Ht). destruct (in_critical x); simpl; lia.
Qed.

Lemma locked_step_move {A} (c : M (world F) A) (next : A -> add_pc) (v : ndarray F)
      (a : doc_args) (w w' : world F) (pc' : add_pc) (l l' : bool) :
  (forall x, in_critical (@TAdd F D v a (next x)) = true) ->
  locked_step c next w = (pc', l', w') ->
  lock_move true l (in_critical (@TAdd F D v a pc')) l'.
Proof.
  intros Hnext. unfold locked_step.
  destruct (c w) as [[x|e] w1]; intros H; inversion H; subst.
  - rewrite Hnext. constructor.
  - constructor.
Qed.

Lemma thread_step_move (t t' : thread F D) (l l' : bool) (w w' : world F) :
  thread_step knn t l w = Some (t', l', w') ->
  lock_move (in_critical t) l (in_critical t') l'.
Proof.
  destruct t as [v a pc|q k pc|pc].
  - destruct pc as [| |doc|doc|slot|slot|r]; cbn [thread_step add_step in_critical];
      try match goal with
          | |- context [locked_step ?c ?n ?w0] =>
              let E := fresh "E" in
              destruct (locked_step c n w0) as [[pc' l1] w1] eqn:E;
              intros H; inversion H; subst;
              apply (locked_step_move c n v a _ _ _ l _ (fun _ => eq_refl) E)
          end.
    + destruct l; [discriminate|]. intros H. inversion H; subst. constructor.
    + intros H. inversion H; subst. constructor.
    + discriminate.
  - cbn [thread_step in_critical].
    pose proof (search_step_ignores_lock knn q k pc l w) as Hs.
    destruct (search_step knn q k pc l w) as [[[pc' l1] w1]|]; [|discriminate].
    destruct Hs as [-> ->]. intros H. inversion H; subst. constructor.
  - destruct pc as [| |r]; cbn [thread_step save_step in_critical].
    + destruct l; [discriminate|]. intros H. inversion H; subst. constructor.
    + destruct (save w) as [r w1]. intros H. inversion H; subst. constructor.
    + discriminate.
Qed.

Lemma step_keeps_lock_agrees (i : nat) (c c' : config F D) :
  lock_agrees c -> step_thread knn i c = Some c' -> lock_agrees c'.
Proof.
  unfold lock_agrees, step_thread. intros Hc.
  destruct (nth_error (threads c) i) as [t|] eqn:Hn; [|discriminate].
  destruct (thread_step knn t (lock_held c) (shared c)) as [[[t' l'] w']|] eqn:Hs;
    [|discriminate].
  intros H. inversion H; subst c'. clear H. cbn [threads lock_held].
  pose proof (critical_count_update _ _ _ t' Hn) as Hu.
  pose proof (thread_step_move _ _ _ _ _ _ Hs) as Hm.
  pose proof (critical_count_member _ _ _ Hn) as Hmem.
  inversion Hm as [lk H1 H2 H3 H4 | H1 H2 H3 H4 | lk H1 H2 H3 H4 | lk H1 H2 H3 H4];
    rewrite <- ?H1, <- ?H3 in Hu; subst;
    destruct (lock_held c); simpl in *; try lia;
    specialize (Hmem (eq_sym H1)); lia.
Qed.

(** X11. Calls of [add_vector] and [save] exclude each other: from a
    configuration where the lock is held exactly when one call is inside
    its [with self.lock] block, every schedule leads to such a
    configuration, so never are two calls inside at once. *)
Theorem lock_excludes (s : list nat) (c c' : config F D) :
  lock_agrees c ->
  run_schedule knn s c = Some c' ->
  lock_agrees c' /\ (critical_count (threads c') <= 1)%nat.
Proof.
  revert c. induction s as [|i s IH]; intros c Hc Hrun; simpl in Hrun.
  - inversion Hrun; subst c'. split; [exact Hc|].
    unfold lock_agrees in Hc. rewrite Hc. destruct (lock_held c); lia.
  - destruct (step_thread knn i c) as [c1|] eqn:Hs; [|discriminate].
    apply (IH c1); [|exact Hrun].
    apply (step_keeps_lock_agrees i c c1 Hc Hs).
Qed.

End MoreLock.

Lemma lock_excludes_witness :
  option_map (fun c => critical_count (threads c)) (after [0; 0; 0; 1]%nat) = Some 1%nat.
Proof.
  assert (Hc : lock_agrees add_and_search) by reflexivity.
  destruct (after [0; 0; 0; 1]%nat) as [c'|] eqn:E; [|vm_compute in E; discriminate E].
  destruct (lock_excludes Z Z flat_knn [0; 0; 0; 1]%nat add_and_search c' Hc E) as [Ha Hle].
  simpl. f_equal.
  assert (Hl : lock_held c' = true).
  { assert (E2 : option_map (@lock_held Z Z) (after [0; 0; 0; 1]%nat) = Some true)
      by (vm_compute; reflexivity).
    rewrite E in E2. simpl in E2. inversion E2. reflexivity. }
  unfold lock_agrees in Ha. rewrite Hl in Ha. exact Ha.
Defined.

(** ** Concurrent [add_vector] calls happen in some serial order *)

Lemma nth_error_list_update {A} (l : list A) (i j : nat) (x : A) :
  (i < List.length l)%nat ->
  nth_error (list_update i x l) j = if Nat.eqb j i then Some x else nth_error l j.
Proof.
  revert i j. induction l as [|y l IH]; intros i j Hi; simpl in Hi; [lia|].
  destruct i as [|i], j as [|j]; simpl; try reflexivity.
  apply IH. lia.
Qed.

Lemma length_list_update {A} (l : list A) (i : nat) (x : A) :
  List.length (list_update i x l) = List.length l.
Proof.
  revert i. induction l as [|y l IH]; intros [|i]; simpl; try reflexivity.
  rewrite IH. reflexivity.
Qed.

Section Serial.

Variables F D : Type.
Variable knn : list (list F) -> list F -> nat -> list (D * Z).
Variable calls : list (ndarray F * doc_args).
Variable w0 : world F.

Lemma serial_adds_snoc (order : list nat) (i : nat) (v : ndarray F) (a : doc_args)
      (w : world F) :
  nth_error calls i = Some (v, a) ->
  serial_adds calls (order ++ [i]) w =
  (fst (serial_adds calls order w)
     ++ [(i, fst (add_vector v a (snd (serial_adds calls order w))))],
   snd (add_vector v a (snd (serial_adds calls order w)))).
Proof.
  intros Hi. revert w. induction order as [|j order IH]; intros w; simpl.
  - rewrite Hi. destruct (add_vector v a w) as [r w1]. reflexivity.
  - destruct (nth_error calls j) as [[vj aj]|]; [|apply IH].
    destruct (add_vector vj aj w) as [r w1]. rewrite IH.
    destruct (serial_adds calls order w1) as [rs w2]. reflexivity.
Qed.

(** A call inside its block steps whatever the lock argument says. *)
Lemma add_step_inside (v : ndarray F) (a : doc_args) (pc : add_pc) (l : bool) (w : world F) :
  in_critical (@TAdd F D v a pc) = true ->
  exists pc' l' w',
    add_step v a pc l w = Some (pc', l', w') /\
    add_step v a pc true w = Some (pc', l', w') /\
    ((in_critical (@TAdd F D v a pc') = true /\ l' = true) \/
     (exists r, pc' = AddDone r) /\ l' = false).
Proof.
  destruct pc as [| |doc|doc|slot|slot|r]; cbn [in_critical]; try discriminate; intros _;
    cbn [add_step];
    try match goal with
        | |- context [locked_step ?c ?n w] =>
            unfold locked_step; destruct (c w) as [[x|e] w1];
            do 3 eexists; (split; [reflexivity|]); (split; [reflexivity|]);
            [left; split; reflexivity | right; split; [eexists; reflexivity | reflexivity]]
        end.
  do 3 eexists. split; [reflexivity|]. split; [reflexivity|].
  right. split; [eexists; reflexivity | reflexivity].
Qed.

Lemma serial_inv_start :
  serial_inv knn calls w0 [] None (mk_config w0 false (add_threads D calls)).
Proof.
  unfold serial_inv, add_threads. cbn [threads lock_held shared serial_adds snd fst].
  split; [constructor|]. split; [intros i []|]. split; [discriminate|].
  split; [apply length_map|]. split; [|split; reflexivity].
  intros i v a Hi. exists AddBegin. split.
  - rewrite nth_error_map, Hi. reflexivity.
  - right. left. split; [intros []|]. split; [discriminate | reflexivity].
Qed.


Lemma run_alone_done (v : ndarray F) (a : doc_args) (r : outcome Z) (fuel : nat)
      (l : bool) (w : world F) :
  run_alone knn fuel (@TAdd F D v a (AddDone r)) l w = (TAdd v a (AddDone r), l, w).
Proof. destruct fuel; reflexivity. Qed.

(** One step of the call that holds the lock: it stays inside and still
    finishes the same way, or it is done, exactly as the method. *)
Lemma finishes_step (v : ndarray F) (a : doc_args) (pc : add_pc) (l : bool)
      (w base : world F) :
  in_critical (@TAdd F D v a pc) = true ->
  finishes knn v a pc w base ->
  exists pc' l' w',
    thread_step knn (@TAdd F D v a pc) l w = Some (TAdd v a pc', l', w') /\
    ((in_critical (@TAdd F D v a pc') = true /\ l' = true /\
      finishes knn v a pc' w' base) \/
     (pc' = AddDone (fst (add_vector v a base)) /\ l' = false /\
      w' = snd (add_vector v a base))).
Proof.
  intros Hin [fuel Hfuel].
  destruct (add_step_inside v a pc l w Hin) as (pc' & l' & w' & Hl & Ht & Hcase).
  exists pc', l', w'. cbn [thread_step]. rewrite Hl. split; [reflexivity|].
  destruct fuel as [|fuel].
  - simpl in Hfuel. inversion Hfuel.
  - cbn [run_alone thread_step] in Hfuel. rewrite Ht in Hfuel.
    destruct Hcase as [[Hc ->]|[[r ->] ->]].
    + left. split; [exact Hc|]. split; [reflexivity|]. exists fuel. exact Hfuel.
    + right. rewrite run_alone_done in Hfuel. inversion Hfuel. repeat split.
Qed.

Lemma finishes_enter (v : ndarray F) (a : doc_args) (w : world F) :
  finishes knn v a AddLocked w w.
Proof.
  exists 6%nat. pose proof (add_alone_is_add_vector knn v a w) as H.
  cbn [run_alone thread_step add_step] in H. exact H.
Qed.


Lemma serial_inv_step (done : list nat) (cur : option nat) (c c' : config F D) (i : nat) :
  serial_inv knn calls w0 done cur c ->
  step_thread knn i c = Some c' ->
  exists done' cur', serial_inv knn calls w0 done' cur' c'.
Proof.
  intros (Hnd & Hbound & Hcur & Hlen & Hth & Hlock) Hstep.
  unfold step_thread in Hstep.
  destruct (nth_error (threads c) i) as [t|] eqn:Hn; [|discriminate].
  assert (Hi : (i < List.length calls)%nat).
  { rewrite <- Hlen. apply nth_error_Some. rewrite Hn. discriminate. }
  destruct (nth_error calls i) as [[v a]|] eqn:Hcall;
    [|apply nth_error_None in Hcall; lia].
  destruct (Hth i v a Hcall) as (pc & Hpc & Hcase).
  rewrite Hpc in Hn. inversion Hn; subst t. clear Hn.
  assert (Hupd : forall t' j, nth_error (list_update i t' (threads c)) j =
                              if Nat.eqb j i then Some t' else nth_error (threads c) j).
  { intros t' j. apply nth_error_list_update. rewrite Hlen. exact Hi. }
  destruct Hcase as [(Hin & r & -> & _) | [(Hnin & Hncur & ->) | (Hnin & Hc & Hcrit & Hfin)]].
  - (* the call is over: it cannot step *)
    simpl in Hstep. discriminate.
  - (* the call has not started *)
    destruct cur as [k|].
    + rewrite Hlock in Hstep. simpl in Hstep. discriminate.
    + destruct Hlock as [Hl Hsh]. rewrite Hl in Hstep. simpl in Hstep.
      inversion Hstep; subst c'. clear Hstep.
      exists done, (Some i). unfold serial_inv. cbn [threads lock_held shared].
      split; [exact Hnd|]. split; [exact Hbound|].
      split; [intros k Hk; inversion Hk; subst k; split; assumption|].
      split; [rewrite length_list_update; exact Hlen|].
      split; [|reflexivity].
      intros j vj aj Hj. rewrite Hupd.
      destruct (Nat.eqb_spec j i) as [->|Hji].
      * rewrite Hcall in Hj. inversion Hj; subst vj aj.
        exists AddLocked. split; [reflexivity|]. right. right.
        split; [exact Hnin|]. split; [reflexivity|]. split; [reflexivity|].
        rewrite Hsh. apply finishes_enter.
      * destruct (Hth j vj aj Hj) as (pcj & Hpcj & Hcj). exists pcj. split; [exact Hpcj|].
        destruct Hcj as [H1 | [(H2 & _ & H3) | (_ & H4 & _)]].
        -- left. exact H1.
        -- right. left. split; [exact H2|]. split; [|exact H3].
           intros E. inversion E. congruence.
        -- discriminate.
  - (* the call holds the lock *)
    subst cur.
    destruct (finishes_step v a pc (lock_held c) (shared c) _ Hcrit Hfin)
      as (pc' & l' & w' & Hts & Hnext).
    rewrite Hts in Hstep. inversion Hstep; subst c'. clear Hstep.
    destruct Hnext as [(Hcrit' & -> & Hfin') | (-> & -> & ->)].
    + exists done, (Some i). unfold serial_inv. cbn [threads lock_held shared].
      split; [exact Hnd|]. split; [exact Hbound|]. split; [exact Hcur|].
      split; [rewrite length_list_update; exact Hlen|].
      split; [|reflexivity].
      intros j vj aj Hj. rewrite Hupd.
      destruct (Nat.eqb_spec j i) as [->|Hji].
      * rewrite Hcall in Hj. inversion Hj; subst vj aj.
        exists pc'. split; [reflexivity|]. right. right.
        split; [exact Hnin|]. split; [reflexivity|]. split; assumption.
      * destruct (Hth j vj aj Hj) as (pcj & Hpcj & Hcj). exists pcj. split; [exact Hpcj|].
        destruct Hcj as [H1 | [H2 | (_ & H4 & _)]].
        -- left. exact H1.
        -- right. left. exact H2.
        -- inversion H4. congruence.
    + exists (done ++ [i]), None. unfold serial_inv. cbn [threads lock_held shared].
      rewrite (serial_adds_snoc done i v a w0 Hcall). cbn [fst snd].
      split.
      { apply NoDup_app; [exact Hnd | repeat constructor; intros [] |].
        intros x Hx [<-|[]]. contradiction. }
      split.
      { intros x Hx. apply in_app_iff in Hx. destruct Hx as [Hx|[<-|[]]];
          [apply Hbound; exact Hx | exact Hi]. }
      split; [discriminate|].
      split; [rewrite length_list_update; exact Hlen|].
      split; [|split; reflexivity].
      intros j vj aj Hj. rewrite Hupd.
      destruct (Nat.eqb_spec j i) as [->|Hji].
      * rewrite Hcall in Hj. inversion Hj; subst vj aj.
        eexists. split; [reflexivity|]. left.
        split; [apply in_app_iff; right; left; reflexivity|].
        eexists. split; [reflexivity|]. apply in_app_iff. right. left. reflexivity.
      * destruct (Hth j vj aj Hj) as (pcj & Hpcj & Hcj). exists pcj. split; [exact Hpcj|].
        destruct Hcj as [(H1 & r & Hr & Hin) | [(H2 & _ & H3) | (_ & H4 & _)]].
        -- left. split; [apply in_app_iff; left; exact H1|].
           exists r. split; [exact Hr|]. apply in_app_iff. left. exact Hin.
        -- right. left. split.
           ++ intros Hx. apply in_app_iff in Hx. destruct Hx as [Hx|[Hx|[]]];
                [contradiction | congruence].
           ++ split; [discriminate | exact H3].
        -- inversion H4. congruence.
Qed.

Lemma serial_inv_run (s : list nat) :
  forall (done : list nat) (cur : option nat) (c c' : config F D),
    serial_inv knn calls w0 done cur c ->
    run_schedule knn s c = Some c' ->
    exists done' cur', serial_inv knn calls w0 done' cur' c'.
Proof.
  induction s as [|i s IH]; intros done cur c c' Hinv Hrun; simpl in Hrun.
  - inversion Hrun; subst c'. exists done, cur. exact Hinv.
  - destruct (step_thread knn i c) as [c1|] eqn:Hs; [|discriminate].
    destruct (serial_inv_step done cur c c1 i Hinv Hs) as (done1 & cur1 & Hinv1).
    apply (IH done1 cur1 c1 c' Hinv1 Hrun).
Qed.

Lemma serial_order_exists (s : list nat) (c' : config F D) :
  run_schedule knn s (mk_config w0 false (add_threads D calls)) = Some c' ->
  all_done (threads c') ->
  exists order : list nat,
    Permutation order (seq 0 (List.length calls)) /\
    lock_held c' = false /\
    shared c' = snd (serial_adds calls order w0) /\
    forall i v a, nth_error calls i = Some (v, a) ->
      exists r, nth_error (threads c') i = Some (TAdd v a (AddDone r)) /\
                In (i, r) (fst (serial_adds calls order w0)).
Proof.
  intros Hrun Hdone.
  destruct (serial_inv_run s [] None _ c' serial_inv_start Hrun)
    as (done & cur & Hnd & Hbound & Hcur & Hlen & Hth & Hlock).
  assert (Hall : forall i v a, nth_error calls i = Some (v, a) ->
             In i done /\
             exists r, nth_error (threads c') i = Some (TAdd v a (AddDone r)) /\
                       In (i, r) (fst (serial_adds calls done w0))).
  { intros i v a Hi. destruct (Hth i v a Hi) as (pc & Hpc & Hcase).
    unfold all_done in Hdone. rewrite Forall_forall in Hdone.
    destruct (Hdone _ (nth_error_In _ _ Hpc)) as (v' & a' & r' & Heq).
    inversion Heq; subst v' a' pc.
    destruct Hcase as [(H1 & r & Hr & Hin) | [(_ & _ & H3) | (_ & _ & H4 & _)]];
      [|discriminate|discriminate].
    split; [exact H1|]. exists r. rewrite <- Hr. split; [exact Hpc | exact Hin]. }
  assert (Hnone : cur = None).
  { destruct cur as [k|]; [|reflexivity].
    destruct (Hcur k eq_refl) as [Hk Hnk].
    destruct (nth_error calls k) as [[v a]|] eqn:Hcall;
      [|apply nth_error_None in Hcall; lia].
    destruct (Hall k v a Hcall) as [Hin _]. contradiction. }
  subst cur. destruct Hlock as [Hl Hsh].
  exists done. split; [|split; [exact Hl|split; [exact Hsh|]]].
  - apply NoDup_Permutation; [exact Hnd | apply seq_NoDup|].
    intros i. rewrite in_seq. split.
    + intros Hin. specialize (Hbound i Hin). lia.
    + intros [_ Hi]. simpl in Hi.
      destruct (nth_error calls i) as [[v a]|] eqn:Hcall;
        [|apply nth_error_None in Hcall; lia].
      apply (Hall i v a Hcall).
  - intros i v a Hi. apply (Hall i v a Hi).
Qed.

(** X12. However the steps of several [add_vector] calls are
    interleaved, once all calls are over the outcome is that of the
    calls run one after the other in some order: each call has the
    result, and the object, the table and the files have the state, of
    that serial run, and the lock is free. *)
Theorem adds_serialize (s : list nat) (c' : config F D) :
  run_schedule knn s (mk_config w0 false (add_threads D calls)) = Some c' ->
  all_done (threads c') ->
  exists order : list nat,
    Permutation order (seq 0 (List.length calls)) /\
    lock_held c' = false /\
    shared c' = snd (serial_adds calls order w0) /\
    forall i v a, nth_error calls i = Some (v, a) ->
      exists r, nth_error (threads c') i = Some (TAdd v a (AddDone r)) /\
                In (i, r) (fst (serial_adds calls order w0)).
Proof. exact (serial_order_exists s c'). Qed.

(** A serial run of accepted calls hands out the next slots in turn. *)
Lemma serial_adds_slots (order : list nat) :
  forall (m : nat) (w : world F),
    consistent m w ->
    Forall (fun c => one_vector (fst c) /\ columns (fst c) = embedding_dim w) calls ->
    (forall i, In i order -> (i < List.length calls)%nat) ->
    fst (serial_adds calls order w) =
      combine order (map (fun j => Ok (Z.of_nat j)) (seq m (List.length order))) /\
    consistent (m + List.length order) (snd (serial_adds calls order w)).
Proof.
  induction order as [|i order IH]; intros m w Hc Hgood Hb.
  - simpl. rewrite Nat.add_0_r. split; [reflexivity | exact Hc].
  - assert (Hi : (i < List.length calls)%nat) by (apply Hb; left; reflexivity).
    destruct (nth_error calls i) as [[v a]|] eqn:Hcall;
      [|apply nth_error_None in Hcall; lia].
    rewrite Forall_forall in Hgood.
    destruct (Hgood _ (nth_error_In _ _ Hcall)) as [Hone Hcol]. simpl in Hone, Hcol.
    destruct (cons_index Hc) as (ix & Hix & Hd & Hlen).
    assert (Hadd : add_vector v a w = (Ok (next_faiss_id w), world_after_add w ix v a)).
    { apply add_vector_succeeds; [exact Hix | congruence]. }
    destruct (@add_vector_consistent F m w v a _ _ Hc Hone Hadd) as [Hslot Hc1].
    assert (Hdim : embedding_dim (world_after_add w ix v a) = embedding_dim w) by reflexivity.
    destruct (IH (S m) (world_after_add w ix v a) Hc1) as [Hf Hs].
    { apply Forall_forall. intros c Hcin. rewrite Hdim. apply Hgood. exact Hcin. }
    { intros j Hj. apply Hb. right. exact Hj. }
    cbn [serial_adds]. rewrite Hcall, Hadd.
    destruct (serial_adds calls order (world_after_add w ix v a)) as [rs w2].
    cbn [fst snd] in *. rewrite Hf, Hslot. split; [reflexivity|].
    replace (m + List.length (i :: order))%nat with (S m + List.length order)%nat
      by (simpl; lia).
    exact Hs.
Qed.

Lemma combine_fst_unique {A B} (l : list A) (l' : list B) (x : A) (y y' : B) :
  NoDup l -> In (x, y) (combine l l') -> In (x, y') (combine l l') -> y = y'.
Proof.
  revert l'. induction l as [|a l IH]; intros [|b l'] Hnd H1 H2; simpl in *;
    try contradiction.
  inversion Hnd as [|? ? Hna Hnd']; subst.
  destruct H1 as [H1|H1], H2 as [H2|H2].
  - congruence.
  - inversion H1; subst. apply in_combine_l in H2. contradiction.
  - inversion H2; subst. apply in_combine_l in H1. contradiction.
  - apply (IH l' Hnd' H1 H2).
Qed.

Lemma in_combine_nth {A B} (l : list A) (l' : list B) (j : nat) (x : A) (y : B) :
  nth_error l j = Some x -> nth_error l' j = Some y -> In (x, y) (combine l l').
Proof.
  revert l' j. induction l as [|a l IH]; intros [|b l'] [|j] H1 H2; simpl in *;
    try discriminate.
  - inversion H1; inversion H2; subst. left. reflexivity.
  - right. apply (IH l' j H1 H2).
Qed.

(** X13. Concurrent [add_vector] calls, each with one vector of the
    configured dimension, on a state where the three structures agree on
    [n] entries: under every interleaving, once all calls are over, they
    have returned the slots [n .. n+N-1], each exactly once, and the
    structures agree on [n+N] entries. *)
Theorem concurrent_adds_fill_slots (n : nat) (s : list nat) (c' : config F D) :
  consistent n w0 ->
  Forall (fun c => one_vector (fst c) /\ columns (fst c) = embedding_dim w0) calls ->
  run_schedule knn s (mk_config w0 false (add_threads D calls)) = Some c' ->
  all_done (threads c') ->
  consistent (n + List.length calls) (shared c') /\
  vector_count (shared c') = Z.of_nat (n + List.length calls) /\
  exists order : list nat,
    Permutation order (seq 0 (List.length calls)) /\
    forall j i, nth_error order j = Some i ->
      exists v a, nth_error calls i = Some (v, a) /\
                  nth_error (threads c') i =
                    Some (TAdd v a (AddDone (Ok (Z.of_nat (n + j))))).
Proof.
  intros Hc Hgood Hrun Hdone.
  destruct (serial_order_exists s c' Hrun Hdone) as (order & Hperm & _ & Hsh & Hres).
  assert (Hlen : List.length order = List.length calls).
  { rewrite (Permutation_length Hperm). apply length_seq. }
  assert (Hb : forall i, In i order -> (i < List.length calls)%nat).
  { intros i Hi. apply (Permutation_in _ Hperm) in Hi. apply in_seq in Hi. lia. }
  destruct (serial_adds_slots order n w0 Hc Hgood Hb) as [Hf Hcons].
  rewrite Hlen in Hcons. rewrite <- Hsh in Hcons.
  split; [exact Hcons|]. split.
  { destruct (cons_index Hcons) as (ix & Hix & _ & Hl).
    unfold vector_count, ntotal. rewrite Hix, Hl. reflexivity. }
  exists order. split; [exact Hperm|].
  intros j i Hj.
  assert (Hi : (i < List.length calls)%nat) by (apply Hb; eapply nth_error_In; exact Hj).
  destruct (nth_error calls i) as [[v a]|] eqn:Hcall;
    [|apply nth_error_None in Hcall; lia].
  exists v, a. split; [reflexivity|].
  destruct (Hres i v a Hcall) as (r & Hr & Hin).
  rewrite Hr. do 3 f_equal.
  rewrite Hf in Hin.
  assert (Hnd : NoDup order).
  { apply (Permutation_NoDup (Permutation_sym Hperm)). apply seq_NoDup. }
  assert (Hj' : (j < List.length order)%nat).
  { apply nth_error_Some. rewrite Hj. discriminate. }
  assert (Hin2 : In (i, Ok (Z.of_nat (n + j)))
                    (combine order (map (fun j0 => Ok (Z.of_nat j0))
                                        (seq n (List.length order))))).
  { apply (in_combine_nth _ _ j); [exact Hj|].
    rewrite nth_error_map. rewrite nth_error_seq.
    destruct (Nat.ltb_spec j (List.length order)); [reflexivity | lia]. }
  apply (combine_fst_unique _ _ _ _ _ Hnd Hin Hin2).
Qed.

End Serial.

Lemma adds_serialize_witness :
  exists (c' : config Z Z) (order : list nat),
    run_schedule flat_knn [1; 1; 1; 1; 1; 1; 0; 0; 0; 0; 0; 0]%nat
                 (mk_config (fresh 2) false (add_threads Z two_calls)) = Some c' /\
    Permutation order [0; 1]%nat /\
    shared c' = snd (serial_adds two_calls order (fresh 2)).
Proof.
  destruct (run_schedule flat_knn [1; 1; 1; 1; 1; 1; 0; 0; 0; 0; 0; 0]%nat
              (mk_config (fresh 2) false (add_threads Z two_calls))) as [c'|] eqn:E;
    [|vm_compute in E; discriminate E].
  assert (Hdone : all_done (threads c')).
  { pose proof E as E2. vm_compute in E2. injection E2 as E2. rewrite <- E2.
    repeat constructor; do 3 eexists; reflexivity. }
  destruct (adds_serialize Z Z flat_knn two_calls (fresh 2) _ c' E Hdone)
    as (order & Hperm & _ & Hsh & _).
  exists c', order. split; [reflexivity|]. split; [exact Hperm | exact Hsh].
Defined.

Lemma concurrent_adds_fill_slots_witness :
  exists c' : config Z Z,
    run_schedule flat_knn [1; 1; 1; 1; 1; 1; 0; 0; 0; 0; 0; 0]%nat
                 (mk_config (fresh 2) false (add_threads Z two_calls)) = Some c' /\
    vector_count (shared c') = 2.
Proof.
  destruct (run_schedule flat_knn [1; 1; 1; 1; 1; 1; 0; 0; 0; 0; 0; 0]%nat
              (mk_config (fresh 2) false (add_threads Z two_calls))) as [c'|] eqn:E;
    [|vm_compute in E; discriminate E].
  assert (Hdone : all_done (threads c')).
  { pose proof E as E2. vm_compute in E2. injection E2 as E2. rewrite <- E2.
    repeat constructor; do 3 eexists; reflexivity. }
  assert (Hgood : Forall (fun c : ndarray Z * doc_args =>
                            one_vector (fst c) /\ columns (fst c) = embedding_dim (@fresh Z 2))
                         two_calls).
  { constructor; [split; reflexivity|]. constructor; [split; reflexivity|]. constructor. }
  destruct (concurrent_adds_fill_slots Z Z flat_knn two_calls (fresh 2) 0 _ c'
              (fresh_consistent Z 2) Hgood E Hdone) as (_ & Hcount & _).
  exists c'. split; [reflexivity | exact Hcount].
Defined.

(* ================================================================== *)
(** * The mapping file, written and read back                          *)
(* ================================================================== *)

Lemma to_int_not_nil (z : Z) :
  Z.to_int z <> Decimal.Pos Decimal.Nil /\ Z.to_int z <> Decimal.Neg Decimal.Nil.
Proof.
  split; intros H; pose proof (f_equal Z.of_int H) as H2;
    rewrite DecimalZ.of_to in H2; simpl in H2; subst z;
    vm_compute in H; discriminate H.
Qed.

(** Different integers have different decimal strings. *)
Lemma str_of_Z_inj (a b : Z) : str_of_Z a = str_of_Z b -> a = b.
Proof.
  unfold str_of_Z. intros H.
  apply (f_equal NilZero.int_of_string) in H.
  destruct (to_int_not_nil a) as [Ha1 Ha2], (to_int_not_nil b) as [Hb1 Hb2].
  rewrite (NilZero.isi _ Ha1 Ha2), (NilZero.isi _ Hb1 Hb2) in H.
  inversion H as [H']. apply DecimalZ.to_int_inj. exact H'.
Qed.

Lemma json_load_fresh (o : json_object) :
  forall acc : dict,
    NoDup (map fst o) ->
    (forall k, In k (map fst o) -> ~ In (KStr k) (dict_keys acc)) ->
    fold_left (fun d kv => dict_set d (KStr (fst kv)) (snd kv)) o acc =
    acc ++ map (fun kv => (KStr (fst kv), snd kv)) o.
Proof.
  induction o as [|[k v] o IH]; intros acc Hnd Hacc; simpl.
  - rewrite app_nil_r. reflexivity.
  - inversion Hnd as [|? ? Hk Hnd']; subst.
    rewrite (@dict_set_new acc (KStr k) v (Hacc k (or_introl eq_refl))).
    rewrite IH.
    + rewrite <- app_assoc. reflexivity.
    + exact Hnd'.
    + intros k' Hk' Hin. unfold dict_keys in Hin. rewrite map_app in Hin.
      apply in_app_iff in Hin. destruct Hin as [Hin|[Hin|[]]].
      * apply (Hacc k' (or_intror Hk')). exact Hin.
      * simpl in Hin. inversion Hin; subst. contradiction.
Qed.

Lemma json_keys_nodup (d : dict) :
  int_keyed d -> NoDup (dict_keys d) -> NoDup (map fst (json_dump d)).
Proof.
  unfold int_keyed, json_dump, dict_keys. rewrite map_map. simpl.
  induction 1 as [|[k v] d [n Hn] Hd IH]; intros Hnd; simpl; [constructor|].
  simpl in Hn. subst k. inversion Hnd as [|? ? Hk Hnd']; subst.
  constructor; [|apply IH; exact Hnd'].
  intros Hin. apply in_map_iff in Hin. destruct Hin as ([k' v'] & Heq & Hin').
  simpl in Heq. rewrite Forall_forall in Hd. destruct (Hd _ Hin') as [m Hm].
  simpl in Hm. subst k'. simpl in Heq. apply str_of_Z_inj in Heq. subst m.
  apply Hk. apply in_map_iff. exists (KInt n, v'). split; [reflexivity | exact Hin'].
Qed.

(** X14. A mapping with integer keys, written by [json.dump] and read
    back by [json.load], has the same entries in the same order with
    every key turned into its decimal string: the document kept under
    slot [n] is found under the string of [n], and nothing is found
    under the integer [n] any more. *)
Theorem mapping_round_trip (d : dict) (n : Z) :
  int_keyed d ->
  NoDup (dict_keys d) ->
  json_load (json_dump d) = stringified d /\
  map snd (json_load (json_dump d)) = map snd d /\
  dict_get (json_load (json_dump d)) (KStr (str_of_Z n)) = dict_get d (KInt n) /\
  dict_get (json_load (json_dump d)) (KInt n) = None.
Proof.
  intros Hint Hnd.
  assert (E : json_load (json_dump d) = stringified d).
  { unfold json_load. rewrite json_load_fresh.
    - unfold stringified, json_dump. rewrite map_map. reflexivity.
    - apply json_keys_nodup; assumption.
    - intros k _ []. }
  split; [exact E|]. split; [|split].
  - rewrite E. unfold stringified. rewrite map_map. reflexivity.
  - rewrite E. clear E Hnd. unfold stringified.
    induction Hint as [|[k v] d [m Hm] Hd IH]; [reflexivity|].
    simpl in Hm. subst k. simpl.
    destruct (Z.eqb_spec m n) as [->|Hmn].
    + rewrite String.eqb_refl. reflexivity.
    + destruct (String.eqb_spec (str_of_Z m) (str_of_Z n)) as [Hs|_];
        [apply str_of_Z_inj in Hs; contradiction | exact IH].
  - apply dict_get_int_str_keys. apply json_load_str_keys.
Qed.

Lemma mapping_round_trip_witness :
  json_load (json_dump (id_to_doc_id two_docs)) = [(KStr "0", 1); (KStr "1", 2)] /\
  dict_get (json_load (json_dump (id_to_doc_id two_docs))) (KStr (str_of_Z 1)) = Some 2.
Proof.
  assert (Hint : int_keyed (id_to_doc_id two_docs)).
  { constructor; [exists 0; reflexivity|]. constructor; [exists 1; reflexivity|].
    constructor. }
  assert (Hnd : NoDup (dict_keys (id_to_doc_id two_docs))).
  { constructor; [intros [H|[]]; discriminate H|].
    constructor; [intros []|]. constructor. }
  destruct (mapping_round_trip (id_to_doc_id two_docs) 1 Hint Hnd) as (H1 & _ & H3 & _).
  split; [rewrite H1; vm_compute; reflexivity | rewrite H3; vm_compute; reflexivity].
Defined.

(* ================================================================== *)
(** * Properties of the chunkers                                       *)
(* ================================================================== *)

(** ** Slices, [rfind] and [strip] *)

Lemma clamp_range (n i : Z) : 0 <= n -> 0 <= clamp n i <= n.
Proof.
  intros Hn. unfold clamp. destruct (Z.ltb_spec i 0); lia.
Qed.

Lemma clamp_inside (n i : Z) : 0 <= i <= n -> clamp n i = i.
Proof.
  intros Hi. unfold clamp. destruct (Z.ltb_spec i 0); lia.
Qed.

Lemma clamp_nonneg (n i : Z) : 0 <= i -> clamp n i = Z.min i n.
Proof.
  intros Hi. unfold clamp. destruct (Z.ltb_spec i 0); lia.
Qed.

(** A slice is a run of consecutive elements of the list. *)
Lemma slice_infix {A} (s : list A) (start stop : Z) :
  exists pre post, s = pre ++ slice s start stop ++ post.
Proof.
  unfold slice.
  set (a := Z.to_nat (clamp (Z.of_nat (List.length s)) start)).
  set (k := Z.to_nat (clamp (Z.of_nat (List.length s)) stop
                      - clamp (Z.of_nat (List.length s)) start)).
  exists (firstn a s), (skipn k (skipn a s)).
  rewrite (firstn_skipn k (skipn a s)). rewrite firstn_skipn. reflexivity.
Qed.

Lemma slice_length {A} (s : list A) (start stop : Z) :
  0 <= start ->
  0 <= stop ->
  Z.of_nat (List.length (slice s start stop)) <= Z.max 0 (stop - start).
Proof.
  intros Hs Ht. unfold slice. rewrite length_firstn.
  rewrite (clamp_nonneg _ start Hs), (clamp_nonneg _ stop Ht). lia.
Qed.

Lemma rfind_scan_bounds (ch : ascii) (s : text) :
  forall pos lo hi best : Z,
    (best = -1 \/ lo <= best < hi) ->
    rfind_scan ch s pos lo hi best = -1 \/
    lo <= rfind_scan ch s pos lo hi best < hi.
Proof.
  induction s as [|c s IH]; intros pos lo hi best Hb; simpl; [exact Hb|].
  apply IH.
  destruct (Z.leb_spec lo pos), (Z.ltb_spec pos hi), (Ascii.eqb c ch); simpl;
    try exact Hb; right; lia.
Qed.

(** [rfind] answers -1 or an index inside the clamped range. *)
Lemma rfind_bounds (s : text) (ch : ascii) (start stop : Z) :
  rfind s ch start stop = -1 \/
  clamp (Z.of_nat (List.length s)) start <= rfind s ch start stop
    < clamp (Z.of_nat (List.length s)) stop.
Proof.
  unfold rfind. apply rfind_scan_bounds. left. reflexivity.
Qed.

Lemma lstrip_suffix (s : text) : exists pre, s = pre ++ lstrip s.
Proof.
  induction s as [|c s [pre IH]]; simpl.
  - exists []. reflexivity.
  - destruct (py_isspace c).
    + exists (c :: pre). simpl. rewrite <- IH. reflexivity.
    + exists []. reflexivity.
Qed.

Lemma lstrip_head (s : text) :
  lstrip s = [] \/ exists c s', lstrip s = c :: s' /\ py_isspace c = false.
Proof.
  induction s as [|c s IH]; simpl; [left; reflexivity|].
  destruct (py_isspace c) eqn:E; [exact IH|].
  right. exists c, s. split; [reflexivity | exact E].
Qed.

Lemma lstrip_fixed (c : ascii) (s : text) :
  py_isspace c = false -> lstrip (c :: s) = c :: s.
Proof. intros H. simpl. rewrite H. reflexivity. Qed.

Lemma lstrip_snoc (s : text) (c : ascii) :
  py_isspace c = false -> lstrip (s ++ [c]) = lstrip s ++ [c].
Proof.
  intros H. induction s as [|x s IH]; simpl.
  - rewrite H. reflexivity.
  - destruct (py_isspace x); [exact IH | reflexivity].
Qed.

Lemma rstrip_cons (c : ascii) (s : text) :
  py_isspace c = false -> rstrip (c :: s) = c :: rstrip s.
Proof.
  intros H. unfold rstrip. simpl. rewrite (lstrip_snoc _ _ H).
  rewrite rev_app_distr. reflexivity.
Qed.

Lemma rstrip_prefix (s : text) : exists post, s = rstrip s ++ post.
Proof.
  unfold rstrip. destruct (lstrip_suffix (rev s)) as [pre H].
  exists (rev pre). rewrite <- rev_app_distr, <- H. symmetry. apply rev_involutive.
Qed.

Lemma lstrip_idem (s : text) : lstrip (lstrip s) = lstrip s.
Proof.
  destruct (lstrip_head s) as [->|(c & s' & -> & Hc)]; [reflexivity|].
  apply lstrip_fixed. exact Hc.
Qed.

Lemma rstrip_idem (s : text) : rstrip (rstrip s) = rstrip s.
Proof.
  unfold rstrip. rewrite rev_involutive, lstrip_idem. reflexivity.
Qed.

(** Stripping twice is stripping once. *)
Lemma strip_idem (s : text) : strip (strip s) = strip s.
Proof.
  unfold strip.
  destruct (lstrip_head s) as [->|(c & s' & -> & Hc)]; [reflexivity|].
  rewrite (rstrip_cons _ _ Hc), (lstrip_fixed _ _ Hc), (rstrip_cons _ _ Hc).
  rewrite rstrip_idem. reflexivity.
Qed.

Lemma strip_infix (s : text) : exists pre post, s = pre ++ strip s ++ post.
Proof.
  unfold strip. destruct (lstrip_suffix s) as [pre Hpre].
  destruct (rstrip_prefix (lstrip s)) as [post Hpost].
  exists pre, post. rewrite <- Hpost. exact Hpre.
Qed.

Lemma strip_length (s : text) : (List.length (strip s) <= List.length s)%nat.
Proof.
  destruct (strip_infix s) as (pre & post & H).
  rewrite H at 2. rewrite !length_app. lia.
Qed.

(** ** [chunk_text] *)

(** With a size that is not negative, the end of a chunk lies between
    its start and [start + size]. *)
Lemma chunk_end_bounds (t : text) (size start : Z) :
  0 <= size -> 0 <= start ->
  start <= chunk_end t size start <= start + size.
Proof.
  intros Hsize Hstart. unfold chunk_end.
  pose proof (Z.div_pos size 2 Hsize ltac:(lia)) as Hhalf.
  destruct (Z.ltb_spec (start + size) (Z.of_nat (List.length t))) as [Hlt|]; [|lia].
  assert (Hhi : clamp (Z.of_nat (List.length t)) (start + size) = start + size)
    by (apply clamp_inside; lia).
  pose proof (rfind_bounds t "."%char start (start + size)) as H1.
  pose proof (rfind_bounds t "!"%char start (start + size)) as H2.
  pose proof (rfind_bounds t "?"%char start (start + size)) as H3.
  pose proof (rfind_bounds t " "%char start (start + size)) as H4.
  rewrite Hhi in H1, H2, H3, H4.
  destruct (Z.ltb_spec (start + size / 2)
              (Z.max (Z.max (rfind t "."%char start (start + size))
                            (rfind t "!"%char start (start + size)))
                     (rfind t "?"%char start (start + size)))); [lia|].
  destruct (Z.ltb_spec (start + size / 2) (rfind t " "%char start (start + size))); lia.
Qed.

Section ChunkText.

Variable t : text.
Variables size overlap : Z.

Lemma loop_chunk_emitted (start : Z) :
  0 <= start ->
  nonempty (strip (slice t start (chunk_end t size start))) = true ->
  loop_chunk t size (strip (slice t start (chunk_end t size start))).
Proof.
  intros Hstart Hne. set (e := chunk_end t size start) in *.
  split; [|split; [|split]].
  - intros E. rewrite E in Hne. discriminate.
  - destruct (slice_infix t start e) as (p1 & q1 & H1).
    destruct (strip_infix (slice t start e)) as (p2 & q2 & H2).
    exists (p1 ++ p2), (q2 ++ q1).
    rewrite H1 at 1. rewrite H2 at 1. rewrite <- !app_assoc. reflexivity.
  - intros Hsize.
    pose proof (chunk_end_bounds t size start Hsize Hstart) as Hb. fold e in Hb.
    pose proof (strip_length (slice t start e)) as Hl.
    pose proof (slice_length t start e Hstart ltac:(lia)) as Hs. lia.
  - apply strip_idem.
Qed.

Lemma chunk_loop_ok (fuel : nat) :
  forall (start : Z) (chunks : list text),
    0 <= start ->
    (1 <= fuel)%nat ->
    Z.of_nat (List.length t) + 1 <= Z.of_nat fuel + start ->
    Forall (loop_chunk t size) chunks ->
    exists chunks',
      chunk_loop fuel t size overlap start chunks = Some chunks' /\
      Forall (loop_chunk t size) chunks'.
Proof.
  induction fuel as [|fuel IH]; intros start chunks Hstart Hone Hfuel Hall.
  - lia.
  - cbn [chunk_loop].
    destruct (Z.ltb_spec start (Z.of_nat (List.length t))) as [Hlt|Hge];
      [|exists chunks; split; [reflexivity | exact Hall]].
    set (e := chunk_end t size start).
    set (chunk := strip (slice t start e)).
    assert (Hall' : Forall (loop_chunk t size) (if nonempty chunk then chunks ++ [chunk] else chunks)).
    { destruct (nonempty chunk) eqn:Hne; [|exact Hall].
      apply Forall_app. split; [exact Hall|]. constructor; [|constructor].
      apply (loop_chunk_emitted start Hstart Hne). }
    destruct (Z.leb_spec e (Z.max (start + 1) (e - overlap))).
    + eexists. split; [reflexivity | exact Hall'].
    + apply IH; [lia | lia | lia | exact Hall'].
Qed.

(** X15. [chunk_text] ends on every text, size and overlap. A text
    that is empty gives no chunk; a text no longer than [size] is its
    own single chunk, unstripped. Every chunk returned is non-empty, is
    a run of consecutive characters of the text and, when [size] is not
    negative, has at most [size] characters; the chunks of a text longer
    than [size] carry no white space at either end. *)
Theorem chunk_text_chunks :
  exists chunks : list text,
    chunk_text t size overlap = Some chunks /\
    Forall (fun c => c <> [] /\
                     (exists pre post, t = pre ++ c ++ post) /\
                     (0 <= size -> Z.of_nat (List.length c) <= size)) chunks /\
    (Z.of_nat (List.length t) <= size -> chunks = if nonempty t then [t] else []) /\
    (size < Z.of_nat (List.length t) -> Forall (fun c => strip c = c) chunks).
Proof.
  unfold chunk_text.
  destruct (nonempty t) eqn:Hne; cbn [negb orb].
  - destruct (Z.leb_spec (Z.of_nat (List.length t)) size) as [Hle|Hgt].
    + exists [t]. split; [reflexivity|]. split; [|split; [reflexivity | lia]].
      constructor; [|constructor]. split; [intros E; rewrite E in Hne; discriminate|].
      split; [exists [], []; rewrite app_nil_r; reflexivity | intros _; exact Hle].
    + destruct (chunk_loop_ok (S (List.length t)) 0 [] ltac:(lia) ltac:(lia)
                  ltac:(lia) (Forall_nil _)) as (chunks & Hrun & Hall).
      exists chunks. split; [exact Hrun|]. split; [|split; [lia|]].
      * eapply Forall_impl; [|exact Hall]. intros c (H1 & H2 & H3 & _). auto.
      * intros _. eapply Forall_impl; [|exact Hall]. intros c (_ & _ & _ & H4). exact H4.
  - destruct t; [|discriminate]. exists []. split; [reflexivity|].
    split; [constructor|]. split; [reflexivity | constructor].
Qed.

(** X16. With an overlap of zero or less, a text longer than [size]
    gives at most one chunk: the loop stops after its first round, and
    what follows the first chunk is not chunked at all. *)
Theorem chunk_text_without_overlap :
  overlap <= 0 ->
  size < Z.of_nat (List.length t) ->
  chunk_text t size overlap =
    Some (if nonempty (strip (slice t 0 (chunk_end t size 0)))
          then [strip (slice t 0 (chunk_end t size 0))] else []) /\
  (0 <= size -> chunk_end t size 0 <= size).
Proof.
  intros Hov Hlong. split.
  - destruct (nonempty t) eqn:Hne.
    + unfold chunk_text. rewrite Hne. cbn [negb orb].
      destruct (Z.leb_spec (Z.of_nat (List.length t)) size); [lia|].
      cbn [chunk_loop].
      destruct (Z.ltb_spec 0 (Z.of_nat (List.length t))) as [_|Hz];
        [|destruct t; [discriminate | simpl in Hz; lia]].
      destruct (Z.leb_spec (chunk_end t size 0)
                  (Z.max (0 + 1) (chunk_end t size 0 - overlap))); [|lia].
      reflexivity.
    + destruct t; [|discriminate]. unfold chunk_text, slice. cbn [nonempty negb orb].
      rewrite skipn_nil, firstn_nil. reflexivity.
  - intros Hsize. pose proof (chunk_end_bounds t size 0 Hsize ltac:(lia)). lia.
Qed.

End ChunkText.

Lemma chunk_text_without_overlap_witness :
  chunk_text (list_ascii_of_string "Hello world. This is a test! And more") 20 0
    = Some [list_ascii_of_string "Hello world."].
Proof.
  assert (H1 : 0 <= 0) by lia.
  assert (H2 : 20 < Z.of_nat (List.length
                 (list_ascii_of_string "Hello world. This is a test! And more")))
    by (vm_compute; reflexivity).
  rewrite (proj1 (chunk_text_without_overlap _ 20 0 H1 H2)).
  vm_compute. reflexivity.
Defined.

(** ** Nothing but white space falls between the chunks *)

Lemma lstrip_spaces (s : text) :
  exists pre, s = pre ++ lstrip s /\ Forall (fun c => py_isspace c = true) pre.
Proof.
  induction s as [|c s (pre & IH & Hpre)]; simpl.
  - exists []. split; [reflexivity | constructor].
  - destruct (py_isspace c) eqn:E.
    + exists (c :: pre). split; [simpl; rewrite <- IH; reflexivity|].
      constructor; assumption.
    + exists []. split; [reflexivity | constructor].
Qed.

Lemma rstrip_spaces (s : text) :
  exists post, s = rstrip s ++ post /\ Forall (fun c => py_isspace c = true) post.
Proof.
  unfold rstrip. destruct (lstrip_spaces (rev s)) as (pre & H & Hpre).
  exists (rev pre). split.
  - rewrite <- rev_app_distr, <- H. symmetry. apply rev_involutive.
  - apply Forall_rev. exact Hpre.
Qed.

(** What [strip] removes at either end is white space. *)
Lemma strip_spaces (s : text) :
  exists pre post,
    s = pre ++ strip s ++ post /\
    Forall (fun c => py_isspace c = true) pre /\
    Forall (fun c => py_isspace c = true) post.
Proof.
  unfold strip. destruct (lstrip_spaces s) as (pre & Hpre & Hp).
  destruct (rstrip_spaces (lstrip s)) as (post & Hpost & Hq).
  exists pre, post. split; [rewrite <- Hpost; exact Hpre | split; assumption].
Qed.

Lemma nth_error_middle {A} (a m b : list A) (i : nat) (x : A) :
  nth_error (a ++ m ++ b) i = Some x ->
  (List.length a <= i < List.length a + List.length m)%nat ->
  nth_error m (i - List.length a) = Some x.
Proof.
  intros H Hi. rewrite nth_error_app2 in H by lia.
  rewrite nth_error_app1 in H by lia. exact H.
Qed.

(** A visible character of a stripped list is in what remains. *)
Lemma strip_keeps_visible (s : text) (j : nat) (c : ascii) :
  nth_error s j = Some c -> py_isspace c = false ->
  exists pre post,
    s = pre ++ strip s ++ post /\
    (List.length pre <= j < List.length pre + List.length (strip s))%nat.
Proof.
  intros Hj Hc. destruct (strip_spaces s) as (pre & post & Hs & Hp & Hq).
  exists pre, post. split; [exact Hs|].
  assert (Hlen : (j < List.length s)%nat) by (apply nth_error_Some; rewrite Hj; discriminate).
  rewrite Hs in Hj, Hlen. rewrite !length_app in Hlen.
  rewrite Forall_forall in Hp, Hq.
  destruct (Nat.lt_ge_cases j (List.length pre)) as [Hlt|Hge].
  - rewrite nth_error_app1 in Hj by exact Hlt.
    apply nth_error_In in Hj. rewrite (Hp c Hj) in Hc. discriminate.
  - destruct (Nat.lt_ge_cases j (List.length pre + List.length (strip s))) as [Hlt2|Hge2];
      [lia|].
    rewrite nth_error_app2 in Hj by lia. rewrite nth_error_app2 in Hj by lia.
    apply nth_error_In in Hj. rewrite (Hq c Hj) in Hc. discriminate.
Qed.

(** The chunk cut from the window [[start, stop)] holds every visible
    character of that window. *)
Lemma window_covered (t : text) (start stop : Z) (i : nat) :
  0 <= start -> 0 <= stop ->
  start <= Z.of_nat i < Z.min stop (Z.of_nat (List.length t)) ->
  visible t i ->
  covers t [strip (slice t start stop)] i.
Proof.
  intros Hstart Hstop Hi (c & Hc & Hvis).
  set (n := Z.of_nat (List.length t)) in *.
  set (a := Z.to_nat start).
  set (k := Z.to_nat (Z.min stop n - start)).
  assert (Hslice : slice t start stop = firstn k (skipn a t)).
  { unfold slice. fold n. rewrite (clamp_nonneg n start Hstart), (clamp_nonneg n stop Hstop).
    replace (Z.min start n) with start by lia. reflexivity. }
  assert (Hsplit : t = firstn a t ++ slice t start stop ++ skipn k (skipn a t)).
  { rewrite Hslice, (firstn_skipn k (skipn a t)), firstn_skipn. reflexivity. }
  assert (Hla : List.length (firstn a t) = a) by (rewrite length_firstn; lia).
  assert (Hls : List.length (slice t start stop) = k).
  { rewrite Hslice, length_firstn, length_skipn. lia. }
  assert (Hj : nth_error (slice t start stop) (i - a) = Some c).
  { rewrite Hsplit in Hc. rewrite <- Hla at 1.
    apply (nth_error_middle _ _ _ _ _ Hc). rewrite Hla, Hls. lia. }
  destruct (strip_keeps_visible _ _ _ Hj Hvis) as (p & q & Hs & Hrange).
  exists (firstn a t ++ p), (strip (slice t start stop)), (q ++ skipn k (skipn a t)).
  split; [left; reflexivity|]. split.
  - rewrite Hsplit at 1. rewrite Hs at 1. rewrite <- !app_assoc. reflexivity.
  - rewrite length_app, Hla. lia.
Qed.

Lemma covers_more (t : text) (chunks more : list text) (i : nat) :
  covers t chunks i -> covers t (chunks ++ more) i.
Proof.
  intros (pre & c & post & Hin & H). exists pre, c, post.
  split; [apply in_app_iff; left; exact Hin | exact H].
Qed.

Lemma strip_empty_no_visible (s : text) (j : nat) (c : ascii) :
  strip s = [] -> nth_error s j = Some c -> py_isspace c = true.
Proof.
  intros He Hj. destruct (py_isspace c) eqn:E; [reflexivity|].
  destruct (strip_keeps_visible s j c Hj E) as (p & q & _ & Hr).
  rewrite He in Hr. simpl in Hr. lia.
Qed.

(** With a size of two or more the chunk ends at least two characters
    after its start. *)
Lemma chunk_end_advances (t : text) (size start : Z) :
  2 <= size -> 0 <= start -> start + 2 <= chunk_end t size start.
Proof.
  intros Hsize Hstart. unfold chunk_end.
  assert (Hhalf : 1 <= size / 2) by (apply Z.div_le_lower_bound; lia).
  destruct (Z.ltb_spec (start + size) (Z.of_nat (List.length t))); [|lia].
  destruct (Z.ltb_spec (start + size / 2)
              (Z.max (Z.max (rfind t "."%char start (start + size))
                            (rfind t "!"%char start (start + size)))
                     (rfind t "?"%char start (start + size)))); [lia|].
  destruct (Z.ltb_spec (start + size / 2) (rfind t " "%char start (start + size))); lia.
Qed.

Section Coverage.

Variable t : text.
Variables size overlap : Z.
Hypothesis Hsize : 2 <= size.
Hypothesis Hoverlap : 1 <= overlap.

Lemma chunk_loop_covers (fuel : nat) :
  forall (start bound : Z) (chunks : list text),
    0 <= start ->
    (1 <= fuel)%nat ->
    Z.of_nat (List.length t) + 1 <= Z.of_nat fuel + start ->
    bound <= Z.of_nat (List.length t) ->
    Z.min start (Z.of_nat (List.length t)) <= bound ->
    (forall i, Z.of_nat i < bound -> visible t i -> covers t chunks i) ->
    exists chunks',
      chunk_loop fuel t size overlap start chunks = Some chunks' /\
      forall i, visible t i -> covers t chunks' i.
Proof.
  induction fuel as [|fuel IH];
    intros start bound chunks Hstart Hone Hfuel Hb Hsb Hcov; [lia|].
  cbn [chunk_loop].
  destruct (Z.ltb_spec start (Z.of_nat (List.length t))) as [Hlt|Hge].
  - set (e := chunk_end t size start).
    pose proof (chunk_end_advances t size start Hsize Hstart) as Hadv. fold e in Hadv.
    set (chunk := strip (slice t start e)).
    set (chunks1 := if nonempty chunk then chunks ++ [chunk] else chunks).
    destruct (Z.leb_spec e (Z.max (start + 1) (e - overlap))); [lia|].
    apply (IH _ (Z.max bound (Z.min e (Z.of_nat (List.length t))))); try lia.
    intros i Hi Hvis.
    destruct (Z.lt_ge_cases (Z.of_nat i) bound) as [Hold|Hnew].
    + specialize (Hcov i Hold Hvis). unfold chunks1.
      destruct (nonempty chunk); [apply covers_more; exact Hcov | exact Hcov].
    + assert (Hwin : covers t [chunk] i).
      { apply window_covered; try lia. exact Hvis. }
      unfold chunks1. destruct (nonempty chunk) eqn:Hne.
      * destruct Hwin as (pre & c & post & Hin & Hocc). exists pre, c, post.
        split; [apply in_app_iff; right; exact Hin | exact Hocc].
      * destruct Hwin as (pre & c & post & [<-|[]] & _ & Hr).
        destruct chunk; [simpl in Hr; lia | discriminate].
  - exists chunks. split; [reflexivity|].
    intros i Hvis. apply Hcov; [|exact Hvis].
    destruct Hvis as (c & Hc & _).
    assert ((i < List.length t)%nat) by (apply nth_error_Some; rewrite Hc; discriminate).
    lia.
Qed.

(** X17. With a size of at least two and an overlap of at least one,
    [chunk_text] loses nothing but white space: whatever the length of
    the text, every character of it that is not white space lies inside
    one of the chunks returned, at its own position. *)
Theorem chunk_text_covers :
  exists chunks : list text,
    chunk_text t size overlap = Some chunks /\
    forall i, visible t i -> covers t chunks i.
Proof.
  unfold chunk_text.
  destruct (nonempty t) eqn:Hne; cbn [negb orb].
  - destruct (Z.leb_spec (Z.of_nat (List.length t)) size).
    + exists [t]. split; [reflexivity|].
      intros i (c & Hc & _). exists [], t, []. split; [left; reflexivity|].
      split; [rewrite app_nil_r; reflexivity|].
      assert ((i < List.length t)%nat) by (apply nth_error_Some; rewrite Hc; discriminate).
      simpl. lia.
    + apply (chunk_loop_covers (S (List.length t)) 0 0 []); try lia.
  - destruct t; [|discriminate]. exists []. split; [reflexivity|].
    intros i (c & Hc & _). destruct i; discriminate Hc.
Qed.

End Coverage.

Lemma chunk_text_covers_witness :
  exists chunks,
    chunk_text (list_ascii_of_string "Hello world. This is a test! And more") 20 5
      = Some chunks /\
    covers (list_ascii_of_string "Hello world. This is a test! And more") chunks 30.
Proof.
  assert (H1 : 2 <= 20) by lia. assert (H2 : 1 <= 5) by lia.
  destruct (chunk_text_covers (list_ascii_of_string "Hello world. This is a test! And more")
              20 5 H1 H2) as (chunks & Hrun & Hcov).
  exists chunks. split; [exact Hrun|]. apply Hcov.
  exists "n"%char. split; reflexivity.
Defined.

(** ** [chunk_transcript] *)

Lemma filter_map_swap {A B} (f : A -> B) (p : B -> bool) (l : list A) :
  filter p (map f l) = map f (filter (fun x => p (f x)) l).
Proof.
  induction l as [|x l IH]; simpl; [reflexivity|].
  destruct (p (f x)); simpl; rewrite IH; reflexivity.
Qed.

(** Filtering [0 .. N-1] by a test that holds below some point and
    fails from there on keeps an initial segment. *)
Lemma filter_seq_prefix (p : nat -> bool) (N : nat) :
  (forall a b, (a <= b)%nat -> p b = true -> p a = true) ->
  exists m, (m <= N)%nat /\ filter p (seq 0 N) = seq 0 m /\
            (forall k, (k < m)%nat -> p k = true) /\
            ((m < N)%nat -> p m = false).
Proof.
  intros Hdown. induction N as [|N (m & Hm & Hf & Hlt & Hge)].
  - exists 0%nat. repeat split; [lia | intros k Hk; lia | lia].
  - rewrite seq_S, filter_app, Hf. simpl.
    destruct (Nat.eq_dec m N) as [->|Hne].
    + destruct (p N) eqn:E.
      * exists (S N). rewrite seq_S. simpl. repeat split; [lia | | lia].
        intros k Hk. apply (Hdown k N); [lia | exact E].
      * exists N. rewrite app_nil_r. repeat split; [lia | exact Hlt | intros _; exact E].
    + assert (Hpm : p m = false) by (apply Hge; lia).
      assert (HpN : p N = false).
      { destruct (p N) eqn:E; [|reflexivity].
        rewrite (Hdown m N ltac:(lia) E) in Hpm. discriminate. }
      rewrite HpN, app_nil_r. exists m. repeat split; [lia | exact Hlt | intros _; exact Hpm].
Qed.

(** [range(0, n, step)] is [0, step, 2 step, ...], and its last element
    is less than one step from [n]. *)
Lemma range_from_zero_spec (n step : Z) :
  0 <= n -> 1 <= step ->
  exists m : nat,
    range_from_zero n step = map (fun k => Z.of_nat k * step) (seq 0 m) /\
    n <= Z.of_nat m * step /\
    (0 < n -> (1 <= m)%nat) /\
    (forall k, (k < m)%nat -> Z.of_nat k * step < n).
Proof.
  intros Hn Hstep. unfold range_from_zero. rewrite filter_map_swap.
  destruct (filter_seq_prefix (fun k => Z.ltb (Z.of_nat k * step) n) (Z.to_nat n))
    as (m & Hm & Hf & Hlt & Hge).
  { intros a b Hab Hb. apply Z.ltb_lt in Hb. apply Z.ltb_lt. nia. }
  exists m. split; [rewrite Hf; reflexivity|]. split.
  - destruct (Nat.eq_dec m (Z.to_nat n)) as [->|Hne]; [nia|].
    specialize (Hge ltac:(lia)). apply Z.ltb_ge in Hge. exact Hge.
  - split.
    + intros Hpos. destruct m as [|m]; [|lia].
      specialize (Hge ltac:(lia)). apply Z.ltb_ge in Hge. simpl in Hge. lia.
    + intros k Hk. apply Z.ltb_lt. exact (Hlt k Hk).
Qed.

(** The loop emits one window per start, up to and including the first
    window that reaches the last word. *)
Lemma transcript_loop_windows (words : list text) (chunk_size step : Z) (m : nat) :
  forall (j0 : nat) (chunks : list text),
    (1 <= m)%nat ->
    Z.of_nat (List.length words) <= Z.of_nat (j0 + m - 1) * step + chunk_size ->
    0 <= step ->
    exists k : nat,
      (1 <= k <= m)%nat /\
      transcript_loop words chunk_size
                      (map (fun i => Z.of_nat i * step) (seq j0 m)) chunks
        = chunks ++ map (window words chunk_size step) (seq j0 k) /\
      Z.of_nat (List.length words) <= Z.of_nat (j0 + k - 1) * step + chunk_size /\
      (forall j, (j0 <= j < j0 + k - 1)%nat ->
                 Z.of_nat j * step + chunk_size < Z.of_nat (List.length words)).
Proof.
  induction m as [|m IH]; intros j0 chunks Hm Hlast Hstep; [lia|].
  cbn [seq map transcript_loop].
  destruct (Z.leb_spec (Z.of_nat (List.length words)) (Z.of_nat j0 * step + chunk_size))
    as [Hreach|Hshort].
  - exists 1%nat. split; [lia|]. split; [reflexivity|]. split.
    + replace (j0 + 1 - 1)%nat with j0 by lia. exact Hreach.
    + intros j Hj. lia.
  - destruct m as [|m].
    { replace (j0 + 1 - 1)%nat with j0 in Hlast by lia. lia. }
    destruct (IH (S j0) (chunks ++ [window words chunk_size step j0]) ltac:(lia)) as (k & Hk & Hrun & Hend & Hbefore).
    { replace (S j0 + S m - 1)%nat with (j0 + S (S m) - 1)%nat by lia. exact Hlast. }
    { exact Hstep. }
    exists (S k). split; [lia|]. split; [|split].
    + fold (window words chunk_size step j0). rewrite Hrun. cbn [seq map]. rewrite <- app_assoc. reflexivity.
    + replace (j0 + S k - 1)%nat with (S j0 + k - 1)%nat by lia. exact Hend.
    + intros j Hj. destruct (Nat.eq_dec j j0) as [->|Hne]; [exact Hshort|].
      apply Hbefore. lia.
Qed.


(** A slice with bounds [0 <= a <= b] is [b - a] elements after the
    first [a]. *)
Lemma slice_window {A} (s : list A) (a b : nat) :
  (a <= b)%nat ->
  slice s (Z.of_nat a) (Z.of_nat b) = firstn (b - a) (skipn a s).
Proof.
  intros Hab. unfold slice.
  rewrite (clamp_nonneg _ (Z.of_nat a) ltac:(lia)), (clamp_nonneg _ (Z.of_nat b) ltac:(lia)).
  destruct (Nat.le_gt_cases a (List.length s)) as [Ha|Ha].
  - replace (Z.to_nat (Z.min (Z.of_nat a) (Z.of_nat (List.length s)))) with a by lia.
    destruct (Nat.le_gt_cases b (List.length s)) as [Hb|Hb].
    + f_equal. lia.
    + rewrite !firstn_all2; [reflexivity | rewrite length_skipn; lia | rewrite length_skipn; lia].
  - rewrite !skipn_all2 by lia. rewrite !firstn_nil. reflexivity.
Qed.

(** X18. For [0 <= overlap < chunk_size] and a text longer than
    [chunk_size] characters, [chunk_transcript] returns the windows of
    [chunk_size] words that start at the multiples of
    [chunk_size - overlap], each joined by single spaces. Every window
    starts at a word of the text, every word lies in some window, and a
    text of at most [chunk_size] words gives one chunk holding all of
    them. *)
Theorem chunk_transcript_windows (t : text) (chunk_size overlap : Z) :
  0 <= overlap < chunk_size ->
  chunk_size < Z.of_nat (List.length t) ->
  let words := split t in
  let size := Z.to_nat chunk_size in
  let step := Z.to_nat (chunk_size - overlap) in
  exists k : nat,
    chunk_transcript t chunk_size overlap
      = Some (map (fun j => join_space (firstn size (skipn (j * step) words))) (seq 0 k)) /\
    (forall j, (j < k)%nat -> (j * step < List.length words)%nat) /\
    (forall i, (i < List.length words)%nat ->
               exists j, (j < k)%nat /\ (j * step <= i < j * step + size)%nat) /\
    (words <> [] -> (List.length words <= size)%nat ->
     chunk_transcript t chunk_size overlap = Some [join_space words]).
Proof.
  intros Hov Hlong words size step.
  assert (Ht : nonempty t = true) by (destruct t; [simpl in Hlong; lia | reflexivity]).
  unfold chunk_transcript. rewrite Ht.
  destruct (Z.leb_spec (Z.of_nat (List.length t)) chunk_size) as [Hle|_]; [lia|].
  cbn [negb orb].
  destruct (Z.eqb_spec (chunk_size - overlap) 0) as [H0|_]; [lia|].
  destruct (Z.ltb_spec (chunk_size - overlap) 0) as [Hneg|_]; [lia|].
  fold words.
  assert (Hwin : forall j : nat,
            window words chunk_size (chunk_size - overlap) j
            = join_space (firstn size (skipn (j * step) words))).
  { intros j. unfold window.
    replace (Z.of_nat j * (chunk_size - overlap)) with (Z.of_nat (j * step)) by (unfold step; nia).
    replace (Z.of_nat (j * step) + chunk_size) with (Z.of_nat (j * step + size))
      by (unfold size; lia).
    rewrite slice_window by lia. do 2 f_equal. lia. }
  destruct (range_from_zero_spec (Z.of_nat (List.length words)) (chunk_size - overlap)
              ltac:(lia) ltac:(lia)) as (m & Hrange & Hm & Hpos & Hbelow).
  rewrite Hrange.
  destruct (Nat.eq_dec (List.length words) 0) as [Hnil|Hsome].
  - (* no word: the range is empty *)
    destruct m as [|m].
    + exists 0%nat. cbn. repeat split.
      * intros j Hj. lia.
      * intros i Hi. lia.
      * intros Hne. apply length_zero_iff_nil in Hnil. contradiction.
    + specialize (Hbelow 0%nat ltac:(lia)). simpl in Hbelow. lia.
  - assert (Hn : (1 <= List.length words)%nat) by lia.
    destruct (transcript_loop_windows words chunk_size (chunk_size - overlap) m 0 [])
      as (k & Hk & Hrun & Hend & Hbefore).
    { apply Hpos. lia. }
    { replace (0 + m - 1)%nat with (m - 1)%nat by lia.
      assert (1 <= m)%nat by (apply Hpos; lia). nia. }
    { lia. }
    exists k. rewrite Hrun. cbn [app]. split; [|split; [|split]].
    + f_equal. apply map_ext. exact Hwin.
    + intros j Hj. specialize (Hbelow j ltac:(lia)). unfold step. nia.
    + intros i Hi.
      set (q := (i / step)%nat).
      assert (Hstep : (1 <= step)%nat) by (unfold step; lia).
      assert (Hq : (q * step <= i < q * step + step)%nat).
      { unfold q. pose proof (Nat.div_mod_eq i step) as E.
        pose proof (Nat.mod_upper_bound i step ltac:(lia)). nia. }
      assert (Hss : (step <= size)%nat) by (unfold step, size; lia).
      destruct (Nat.le_gt_cases q (k - 1)) as [Hqk|Hqk].
      * exists q. split; [lia|]. lia.
      * exists (k - 1)%nat. split; [lia|].
        replace (0 + k - 1)%nat with (k - 1)%nat in Hend by lia.
        split; [nia|]. unfold step, size. nia.
    + intros _ Hshort. f_equal.
      assert (Hk1 : k = 1%nat).
      { destruct (Nat.eq_dec k 1) as [E|Hne]; [exact E|].
        specialize (Hbefore 0%nat ltac:(lia)). unfold size in Hshort. simpl in Hbefore. lia. }
      subst k. cbn [seq map]. rewrite Hwin. cbn [Nat.mul skipn].
      rewrite firstn_all2 by exact Hshort. reflexivity.
Qed.

Lemma chunk_transcript_windows_witness :
  exists k : nat,
    chunk_transcript (list_ascii_of_string "one two three four five") 3 1
      = Some (map (fun j => join_space (firstn 3 (skipn (j * 2)
                      (split (list_ascii_of_string "one two three four five")))))
                  (seq 0 k)).
Proof.
  destruct (chunk_transcript_windows (list_ascii_of_string "one two three four five") 3 1)
    as (k & Hk & _).
  - lia.
  - vm_compute. reflexivity.
  - exists k. exact Hk.
Defined.

(** X19. With a text longer than [chunk_size] characters,
    [overlap = chunk_size] makes [chunk_transcript] raise (the
    [ValueError] of a zero [range] step) and a larger overlap makes it
    return no chunk at all, so the transcript is dropped. *)
Theorem chunk_transcript_bad_overlap (t : text) (chunk_size overlap : Z) :
  0 <= chunk_size < Z.of_nat (List.length t) ->
  (overlap = chunk_size -> chunk_transcript t chunk_size overlap = None) /\
  (chunk_size < overlap -> chunk_transcript t chunk_size overlap = Some []).
Proof.
  intros Hlong.
  assert (Ht : nonempty t = true) by (destruct t; [simpl in Hlong; lia | reflexivity]).
  unfold chunk_transcript. rewrite Ht.
  destruct (Z.leb_spec (Z.of_nat (List.length t)) chunk_size) as [Hle|_]; [lia|].
  cbn [negb orb]. split.
  - intros ->. rewrite Z.sub_diag. reflexivity.
  - intros Hov.
    destruct (Z.eqb_spec (chunk_size - overlap) 0) as [H0|_]; [lia|].
    destruct (Z.ltb_spec (chunk_size - overlap) 0) as [_|Hpos]; [reflexivity | lia].
Qed.

Lemma chunk_transcript_bad_overlap_witness :
  chunk_transcript (list_ascii_of_string "one two three") 5 5 = None.
Proof.
  apply (chunk_transcript_bad_overlap (list_ascii_of_string "one two three") 5 5).
  - vm_compute. split; [discriminate | reflexivity].
  - reflexivity.
Defined.

(** *** The words of a transcript *)

Lemma split_scan_clean (s : text) :
  forall word, forallb not_space word = true -> Forall clean_word (split_scan s word).
Proof.
  induction s as [|c s IH]; intros word Hword; cbn [split_scan].
  - destruct word as [|a word]; cbn [nonempty]; constructor; [|constructor].
    split; [discriminate | exact Hword].
  - destruct (py_isspace c) eqn:Ec.
    + destruct word as [|a word]; cbn [nonempty].
      * apply IH. reflexivity.
      * constructor; [split; [discriminate | exact Hword] | apply IH; reflexivity].
    + apply IH. rewrite forallb_app, Hword. cbn. unfold not_space. rewrite Ec. reflexivity.
Qed.

Lemma split_scan_concat (s : text) :
  forall word, List.concat (split_scan s word) = word ++ filter not_space s.
Proof.
  induction s as [|c s IH]; intros word; cbn [split_scan filter].
  - destruct word; cbn [nonempty List.concat]; rewrite ?app_nil_r; reflexivity.
  - unfold not_space at 1. destruct (py_isspace c) eqn:Ec; cbn [negb].
    + destruct word as [|a word]; cbn [nonempty List.concat].
      * rewrite IH. reflexivity.
      * rewrite IH. reflexivity.
    + rewrite IH, <- app_assoc. reflexivity.
Qed.

Lemma split_scan_word (w : text) :
  forall rest acc, forallb not_space w = true ->
                   split_scan (w ++ rest) acc = split_scan rest (acc ++ w).
Proof.
  induction w as [|c w IH]; intros rest acc Hw.
  - rewrite app_nil_r. reflexivity.
  - cbn [forallb] in Hw. apply andb_true_iff in Hw. destruct Hw as [Hc Hw].
    unfold not_space in Hc. apply negb_true_iff in Hc.
    cbn [app split_scan]. rewrite Hc. rewrite (IH rest (acc ++ [c]) Hw).
    rewrite <- app_assoc. reflexivity.
Qed.

Lemma split_join (ws : list text) :
  Forall clean_word ws -> split (join_space ws) = ws.
Proof.
  unfold split. induction ws as [|w ws IH]; intros Hws; [reflexivity|].
  inversion Hws as [|w' ws' [Hne Hw] Hrest]; subst.
  destruct ws as [|w2 ws].
  - cbn [join_space]. rewrite <- (app_nil_r w) at 1.
    rewrite (split_scan_word w [] [] Hw). cbn [app split_scan].
    destruct w; [contradiction Hne; reflexivity | reflexivity].
  - change (join_space (w :: w2 :: ws)) with (w ++ " "%char :: join_space (w2 :: ws)).
    rewrite (split_scan_word w _ [] Hw). cbn [app].
    change (split_scan (" "%char :: join_space (w2 :: ws)) w)
      with (if nonempty w then w :: split_scan (join_space (w2 :: ws)) []
            else split_scan (join_space (w2 :: ws)) []).
    destruct w; [contradiction Hne; reflexivity|]. cbn [nonempty].
    rewrite (IH Hrest). reflexivity.
Qed.

(** X20. Splitting a chunk of [chunk_transcript] into words again gives
    back the words of its window: for every slice [words[a:b]] of the
    words of a text, [" ".join(words[a:b]).split()] is [words[a:b]]. *)
Theorem chunk_words_round_trip (t : text) (a b : Z) :
  split (join_space (slice (split t) a b)) = slice (split t) a b.
Proof.
  apply split_join.
  destruct (slice_infix (split t) a b) as (pre & post & E).
  assert (Hall : Forall clean_word (split t)) by (apply split_scan_clean; reflexivity).
  rewrite E in Hall. apply Forall_app in Hall. destruct Hall as [_ Hall].
  apply Forall_app in Hall. destruct Hall as [Hall _]. exact Hall.
Qed.

(** X21. [text.split()] keeps every character that is not white space,
    in order, and nothing else: the words are not empty, hold no white
    space, and concatenated they are the text without its white space. *)
Theorem split_keeps_visible (t : text) :
  Forall clean_word (split t) /\
  List.concat (split t) = filter not_space t.
Proof.
  split.
  - apply split_scan_clean. reflexivity.
  - unfold split. rewrite split_scan_concat. reflexivity.
Qed.
